(** * The transaction ledger of the UI client

  A shallow embedding of [ui/src/transaction.ts] (the managed-transaction
  store, its smart constructors, the capping and the status refresh) and
  of the "temporary sketch code" that precedes it in the pool module,
  followed by the properties of the ledger.  The alerts reducer, the
  navigation history, the code view store and the pool's receiver update
  are embedded after the ledger, each with its properties at the end. *)

From Stdlib Require Import List String ZArith QArith Qround Lia Bool Arith.
Import ListNotations.

Close Scope Q_scope.
Local Open Scope string_scope.
Local Open Scope list_scope.

(** ** JavaScript values used by the module *)

Module JS.

(** Truthiness of a string: every string but the empty one. *)
Definition truthy_string (s : string) : bool := negb (String.eqb s "").

(** Truthiness of an integral number: every number but zero. *)
Definition truthy_number (n : Z) : bool := negb (Z.eqb n 0).

(** [a[i]] on an array: [undefined] outside [0 .. a.length - 1]. *)
Definition array_get {A : Type} (a : list A) (i : Z) : option A :=
  if (i <? 0)%Z then None else nth_error a (Z.to_nat i).

(** [a.length = n] for [n <= a.length]: the first [n] elements stay. *)
Definition set_length {A : Type} (n : nat) (a : list A) : list A := firstn n a.

(** [a.push(x)]. *)
Definition push {A : Type} (x : A) (a : list A) : list A := a ++ [x].

End JS.

(** ** ui/src/transaction.ts *)

Module Transaction.

Definition POLL_INTERVAL_MILLIS : Z := 10000.

(** [enum TxStatus], a string enum. *)
Inductive TxStatus : Type :=
| PendingApproval
| AwaitingInclusion
| Included
| Rejected.

(** The runtime value of each member of [TxStatus]. *)
Definition TxStatus_value (s : TxStatus) : string :=
  match s with
  | PendingApproval => "Pending Approval"
  | AwaitingInclusion => "Awaiting inclusion"
  | Included => "Included"
  | Rejected => "Rejected"
  end.

(** [BigNumberish] amounts are carried around untouched. *)
Definition BigNumberish : Type := Z.

(** [type PoolTx], tagged by [kind : PoolTxKind]. *)
Inductive PoolTx : Type :=
| TopUp (amount : BigNumberish)
| CollectFunds (amount : BigNumberish)
| UpdateMonthlyContribution (amount : BigNumberish)
| UpdateBeneficiaries.

(** [interface Tx]. *)
Record Tx : Type := mkTx
  { hash : string;
    status : TxStatus;
    inner : PoolTx }.

(** The fields of ethers' [ContractTransaction] the module reads:
    [blockNumber] is an optional number. *)
Record ContractTransaction : Type := mkContractTransaction
  { txc_hash : string;
    blockNumber : option Z;
    value : BigNumberish }.

(** The condition [txc.blockNumber ? _ : _]. *)
Definition blockNumber_truthy (txc : ContractTransaction) : bool :=
  match blockNumber txc with
  | Some n => JS.truthy_number n
  | None => false
  end.

(** *** Smart constructors for [Tx] values *)

Definition amountPerBlock (txc : ContractTransaction) : Tx :=
  {| hash := txc_hash txc;
     status := if blockNumber_truthy txc then Included else AwaitingInclusion;
     inner := UpdateMonthlyContribution (value txc) |}.

Definition beneficiaries (txc : ContractTransaction) : Tx :=
  {| hash := txc_hash txc;
     status := if blockNumber_truthy txc then Included else AwaitingInclusion;
     inner := UpdateBeneficiaries |}.

Definition collect (txc : ContractTransaction) : Tx :=
  {| hash := txc_hash txc;
     status := if blockNumber_truthy txc then Included else AwaitingInclusion;
     inner := CollectFunds (value txc) |}.

Definition topUp (txc : ContractTransaction) : Tx :=
  {| hash := txc_hash txc;
     status := if blockNumber_truthy txc then Included else AwaitingInclusion;
     inner := TopUp (value txc) |}.

(** *** The store

    [svelteStore.writable<Tx[]>([])].  The svelte package is not part of
    the repository; the store follows its contract: [update fn] replaces
    the value by [fn value] and then runs every subscriber on the new
    value, in subscription order (an array always counts as a new value);
    [subscribe run] registers [run] and calls it once, at once, with the
    current value.  The only callbacks
    that write to the array are the ones [updateStatus] registers, so a
    subscriber is recorded by the hash and status its closure captured. *)

Record Subscriber : Type := mkSubscriber
  { sub_hash : string;
    sub_status : TxStatus }.

Record Store : Type := mkStore
  { txs : list Tx;
    subscribers : list Subscriber }.

(** [writable([])] before anything subscribed. *)
Definition store : Store := {| txs := []; subscribers := [] |}.

(** [tx.status = s]. *)
Definition set_status (tx : Tx) (s : TxStatus) : Tx :=
  {| hash := hash tx; status := s; inner := inner tx |}.

(** The callback of [updateStatus]:
    [const tx = txs.find(tx => tx.hash === hash); if (tx) tx.status = status]
    writes to the first record with that hash, in place.  The array is
    kept as the records it shows, position by position: an object held at
    two positions (the same object added twice) would show the write at
    both.  Records with different hashes are different objects, so what is
    stated by hash, or of a ledger with pairwise distinct hashes, holds of
    the shared objects as well. *)
Fixpoint assign_first (h : string) (s : TxStatus) (l : list Tx) : list Tx :=
  match l with
  | [] => []
  | tx :: rest =>
      if String.eqb (hash tx) h then set_status tx s :: rest
      else tx :: assign_first h s rest
  end.

Definition run_subscriber (v : list Tx) (sub : Subscriber) : list Tx :=
  assign_first (sub_hash sub) (sub_status sub) v.

(** The subscribers run one after the other on the stored array. *)
Definition notify (subs : list Subscriber) (v : list Tx) : list Tx :=
  fold_left run_subscriber subs v.

(** [store.update(fn)]. *)
Definition store_update (fn : list Tx -> list Tx) (st : Store) : Store :=
  {| txs := notify (subscribers st) (fn (txs st));
     subscribers := subscribers st |}.

(** [store.subscribe(run)]; the unsubscribe function it returns is
    dropped by the only caller, so the subscription stays. *)
Definition store_subscribe (sub : Subscriber) (st : Store) : Store :=
  {| txs := run_subscriber (txs st) sub;
     subscribers := subscribers st ++ [sub] |}.

(** *** Operations *)

(** [txs.length = Math.min(txs.length, 7)]. *)
Definition cap (st : Store) : Store :=
  store_update (fun l => JS.set_length (Nat.min (List.length l) 7) l) st.

Definition add (tx : Tx) (st : Store) : Store :=
  cap (store_update (JS.push tx) st).

Definition updateStatus (h : string) (s : TxStatus) (st : Store) : Store :=
  store_subscribe {| sub_hash := h; sub_status := s |} st.

(** The test [if (newStatus)] on a [TxStatus | undefined]. *)
Definition truthy (r : option TxStatus) : bool :=
  match r with
  | Some s => JS.truthy_string (TxStatus_value s)
  | None => false
  end.

(** The status lookup is an external capability whose answer may differ
    from call to call: it reads and advances a world [W]. *)
Section Refresh.

Context {W : Type}.
Variable lookup : string -> W -> option TxStatus * W.

(** One round of the [forEach] body:
    [const newStatus = lookupStatus(tx.hash); if (newStatus) tx.status = newStatus]. *)
Definition refresh_one (tx : Tx) (w : W) : Tx * option TxStatus * W :=
  let (newStatus, w') := lookup (hash tx) w in
  (match newStatus with
   | Some s => if truthy newStatus then set_status tx s else tx
   | None => tx
   end, newStatus, w').

(** [txs.forEach(...)]: the refreshed array, the lookups made (hash
    asked, answer received) in the order they were made, and the world
    afterwards.  Each position is given the answer to its own lookup: an
    object held at two positions would end with the later answer at
    both. *)
Fixpoint forEach_refresh (l : list Tx) (w : W)
  : list Tx * list (string * option TxStatus) * W :=
  match l with
  | [] => ([], [], w)
  | tx :: rest =>
      let '(tx', answer, w1) := refresh_one tx w in
      let '(rest', calls, w2) := forEach_refresh rest w1 in
      (tx' :: rest', (hash tx, answer) :: calls, w2)
  end.

(** [updateAll]: the callback runs inside [store.update]. *)
Definition updateAll (st : Store) (w : W) : Store * W :=
  let '(v, _, w') := forEach_refresh (txs st) w in
  ({| txs := notify (subscribers st) v; subscribers := subscribers st |}, w').

(** The callback handed to [setInterval]: [() => updateAll].  Its body
    is the expression [updateAll], so a firing evaluates to the function
    itself and calls nothing. *)
Definition poll_callback (st : Store) (w : W)
  : (Store * W) * (Store -> W -> Store * W) :=
  ((st, w), updateAll).

(** [n] firings of the timer. *)
Fixpoint timer_fires (n : nat) (st : Store) (w : W) : Store * W :=
  match n with
  | O => (st, w)
  | S k => let '(st', w') := fst (poll_callback st w) in timer_fires k st' w'
  end.

(** Calls made on the module after it is loaded. *)
Inductive Call : Type :=
| CallAdd (tx : Tx)
| CallUpdateStatus (h : string) (s : TxStatus)
| CallUpdateAll.

Definition step (c : Call) (sw : Store * W) : Store * W :=
  match c with
  | CallAdd tx => (add tx (fst sw), snd sw)
  | CallUpdateStatus h s => (updateStatus h s (fst sw), snd sw)
  | CallUpdateAll => updateAll (fst sw) (snd sw)
  end.

Definition run (cs : list Call) (sw : Store * W) : Store * W :=
  fold_left (fun acc c => step c acc) cs sw.

End Refresh.

(** A sequence of [add] calls. *)
Definition adds (l : list Tx) (st : Store) : Store :=
  fold_left (fun acc tx => add tx acc) l st.

(** *** The built-in lookup *)

(** [Math.floor(Math.random() * Math.floor(max))].  [Math.random()] is a
    double [r] with [0 <= r < 1]; every double is a rational and the
    product with [4] is exact, so the draw is kept as a rational. *)
Definition randomInt (max : Q) (r : Q) : Z :=
  Qfloor (r * inject_Z (Qfloor max))%Q.

Definition statuses : list TxStatus :=
  [PendingApproval; AwaitingInclusion; Included; Rejected].

(** [lookupStatus(_hash)] at the draw [r]. *)
Definition lookupStatus (_hash : string) (r : Q) : option TxStatus :=
  JS.array_get statuses (randomInt (inject_Z (Z.of_nat (List.length statuses))) r).

(** The built-in lookup as a capability: the world is the sequence of
    draws [Math.random] still has to return. *)
Definition lookupStatus_random (h : string) (rnd : nat -> Q)
  : option TxStatus * (nat -> Q) :=
  (lookupStatus h (rnd O), fun n => rnd (S n)).

End Transaction.


(** ** The temporary sketch code of the pool module

    The same ledger over a plain array, written before [transaction.ts]:
    [TxStatus] is a numeric enum here, [addTx] only pushes, and [cap] (at
    5) and [updateAll] are separate functions that nothing calls. *)

Module Sketch.

(** [enum TxStatus] without initialisers: members count from 0. *)
Inductive TxStatus : Type :=
| PendingApproval
| AwaitingInclusion
| Included
| Rejected.

Definition TxStatus_value (s : TxStatus) : Z :=
  match s with
  | PendingApproval => 0
  | AwaitingInclusion => 1
  | Included => 2
  | Rejected => 3
  end.

(** [type PoolTx]; amounts are strings in the sketch. *)
Inductive PoolTx : Type :=
| TopUp (amount : string)
| CollectFunds (amount : string)
| UpdateMonthlyContribution (amount : string)
| UpdateBeneficiaries.

Record Tx : Type := mkTx
  { hash : string;
    status : TxStatus;
    inner : PoolTx }.

Definition set_status (tx : Tx) (s : TxStatus) : Tx :=
  {| hash := hash tx; status := s; inner := inner tx |}.


Definition addTx (tx : Tx) (l : list Tx) : list Tx := JS.push tx l.

(** [const tx = transactions.find(tx => tx.hash === hash); if (tx) tx.status = status]:
    a write to the first record with that hash, in place; the array is
    kept as the records it shows, as in [transaction.ts]. *)
Fixpoint updateTxStatus (h : string) (s : TxStatus) (l : list Tx) : list Tx :=
  match l with
  | [] => []
  | tx :: rest =>
      if String.eqb (hash tx) h then set_status tx s :: rest
      else tx :: updateTxStatus h s rest
  end.

(** [transactions.length = Math.min(transactions.length, 5)]. *)
Definition cap (l : list Tx) : list Tx :=
  JS.set_length (Nat.min (List.length l) 5) l.

(** The test [if (newStatus)] on a numeric [TxStatus | undefined]. *)
Definition truthy (r : option TxStatus) : bool :=
  match r with
  | Some s => JS.truthy_number (TxStatus_value s)
  | None => false
  end.

Section Refresh.

Context {W : Type}.
Variable lookup : string -> W -> option TxStatus * W.

Fixpoint updateAll (l : list Tx) (w : W) : list Tx * W :=
  match l with
  | [] => ([], w)
  | tx :: rest =>
      let (newStatus, w1) := lookup (hash tx) w in
      let tx' := match newStatus with
                 | Some s => if truthy newStatus then set_status tx s else tx
                 | None => tx
                 end in
      let (rest', w2) := updateAll rest w1 in
      (tx' :: rest', w2)
  end.

End Refresh.

End Sketch.

(** ** Observations and sample data *)

Module Ledger.

Import Transaction.

Definition hashes (st : Store) : list string := map hash (txs st).

Definition hash_at (i : nat) (st : Store) : option string :=
  option_map hash (nth_error (txs st) i).

Definition status_at (i : nat) (st : Store) : option TxStatus :=
  option_map status (nth_error (txs st) i).

(** The empty ledger, whatever has subscribed to the store so far. *)
Definition empty (subs : list Subscriber) : Store :=
  {| txs := []; subscribers := subs |}.

(** The records a sequence of calls adds, in call order. *)
Fixpoint added (cs : list Call) : list Tx :=
  match cs with
  | [] => []
  | CallAdd tx :: rest => tx :: added rest
  | _ :: rest => added rest
  end.

(** What the refresh loop is specified to leave in a record, given the
    answer of the lookup. *)
Definition assigned (tx : Tx) (answer : option TxStatus) : Tx :=
  match answer with
  | Some s => set_status tx s
  | None => tx
  end.

(** A write of status [s] aimed at hash [h] leaves status [s0] of a record
    with hash [h0] alone. *)
Definition spares (h0 : string) (s0 : TxStatus) (h : string) (s : TxStatus) : Prop :=
  h = h0 -> s = s0.

Definition subscriber_spares (h0 : string) (s0 : TxStatus) (sub : Subscriber) : Prop :=
  spares h0 s0 (sub_hash sub) (sub_status sub).

Definition call_spares (h0 : string) (s0 : TxStatus) (c : Call) : Prop :=
  match c with
  | CallAdd _ => False
  | CallUpdateStatus h s => spares h0 s0 h s
  | CallUpdateAll => True
  end.

(** A lookup that answers the same status for every hash. *)
Definition always (s : TxStatus) (_ : string) (w : unit) : option TxStatus * unit :=
  (Some s, w).

(** A lookup that never has an answer. *)
Definition never (_ : string) (w : unit) : option TxStatus * unit :=
  (None, w).

Definition tx_of (h : string) (s : TxStatus) : Tx :=
  {| hash := h; status := s; inner := TopUp 100%Z |}.

Definition eight : list Tx :=
  map (fun h => tx_of h AwaitingInclusion)
      ["h1"; "h2"; "h3"; "h4"; "h5"; "h6"; "h7"; "h8"].

(** The array [updateAll]'s loop leaves, and the lookups it makes. *)
Definition refreshed {W} (lookup : string -> W -> option TxStatus * W)
  (l : list Tx) (w : W) : list Tx :=
  fst (fst (forEach_refresh lookup l w)).

Definition lookups {W} (lookup : string -> W -> option TxStatus * W)
  (l : list Tx) (w : W) : list (string * option TxStatus) :=
  snd (fst (forEach_refresh lookup l w)).

(** The store after one pending transaction was added. *)
Definition one_pending : Store := add (tx_of "h1" AwaitingInclusion) store.

(** A transaction the chain client reports in block 0. *)
Definition in_block_zero : ContractTransaction :=
  {| txc_hash := "0xabc"; blockNumber := Some 0%Z; value := 100%Z |}.

(** [Math.random] returning 0.75 at every call. *)
Definition three_quarters (_ : nat) : Q := (3 # 4)%Q.

(** The four smart constructors. *)
Definition constructors : list (ContractTransaction -> Tx) :=
  [amountPerBlock; beneficiaries; collect; topUp].

(** The record at position [i] has hash [h0] and status [s0]. *)
Definition record_at (i : nat) (h0 : string) (s0 : TxStatus) (l : list Tx) : Prop :=
  exists tx, nth_error l i = Some tx /\ hash tx = h0 /\ status tx = s0.

(** The store after one transaction already included was added. *)
Definition one_included : Store := add (tx_of "h1" Included) store.

(** Two records with the same hash, added one after the other. *)
Definition same_hash_twice : list Call :=
  [CallAdd (tx_of "h1" AwaitingInclusion); CallAdd (tx_of "h1" Included)].

(** Three records with distinct hashes and calls in between. *)
Definition distinct_hashes : list Call :=
  [CallAdd (tx_of "h1" AwaitingInclusion); CallUpdateStatus "h1" Included;
   CallAdd (tx_of "h2" AwaitingInclusion); CallUpdateAll;
   CallAdd (tx_of "h3" PendingApproval)].

(** No callback subscribed to the store writes to a record with hash [h]. *)
Definition untargeted (st : Store) (h : string) : Prop :=
  Forall (fun sub => sub_hash sub <> h) (subscribers st).

End Ledger.


(** ** Callbacks left subscribed *)

Module Pins.

Import Transaction Ledger.

(** [txs.find(tx => tx.hash === h)]. *)
Definition first_with (h : string) (l : list Tx) : option Tx :=
  find (fun tx => String.eqb (hash tx) h) l.

(** The status carried by the callback subscribed last for hash [h]. *)
Fixpoint pin (h : string) (subs : list Subscriber) : option TxStatus :=
  match subs with
  | [] => None
  | sub :: rest =>
      match pin h rest with
      | Some s => Some s
      | None => if String.eqb (sub_hash sub) h then Some (sub_status sub) else None
      end
  end.

(** Running the subscribed callbacks once more changes nothing. *)
Definition settled (st : Store) : Prop :=
  notify (subscribers st) (txs st) = txs st.

(** The callbacks a sequence of calls subscribes, in call order. *)
Fixpoint updates (cs : list Call) : list Subscriber :=
  match cs with
  | [] => []
  | CallUpdateStatus h s :: rest => {| sub_hash := h; sub_status := s |} :: updates rest
  | _ :: rest => updates rest
  end.

(** A lookup that answers nothing in any world. *)
Definition silent {W : Type} (lookup : string -> W -> option TxStatus * W) : Prop :=
  forall h w, fst (lookup h w) = None.

(** Seven adds with calls of the other kinds in between, and an eighth. *)
Definition seven_and_more : list Call :=
  map CallAdd (firstn 7 eight)
  ++ [CallUpdateStatus "h3" Rejected; CallUpdateAll; CallAdd (tx_of "h8" Included)].

(** The lookups a loop over the hashes [hs] makes, one per hash and in
    order: the answers, and the world afterwards. *)
Fixpoint ask {W A : Type} (lookup : string -> W -> A * W) (hs : list string) (w : W)
  : list A * W :=
  match hs with
  | [] => ([], w)
  | h :: rest =>
      let (answer, w1) := lookup h w in
      let (answers, w2) := ask lookup rest w1 in
      (answer :: answers, w2)
  end.

(** What the sketch's loop leaves in a record: [PendingApproval] is the
    number 0 and counts as no answer. *)
Definition sketch_assigned (tx : Sketch.Tx) (answer : option Sketch.TxStatus) : Sketch.Tx :=
  match answer with
  | None => tx
  | Some Sketch.PendingApproval => tx
  | Some s => Sketch.set_status tx s
  end.

(** [transactions.find(tx => tx.hash === h)] in the sketch. *)
Definition sketch_first (h : string) (l : list Sketch.Tx) : option Sketch.Tx :=
  find (fun tx => String.eqb (Sketch.hash tx) h) l.


Definition sketch_tx (h : string) (s : Sketch.TxStatus) : Sketch.Tx :=
  {| Sketch.hash := h; Sketch.status := s; Sketch.inner := Sketch.UpdateBeneficiaries |}.

(** Six records for the sketch. *)
Definition six : list Sketch.Tx :=
  map (fun h => sketch_tx h Sketch.AwaitingInclusion)
      ["h1"; "h2"; "h3"; "h4"; "h5"; "h6"].

(** A lookup for the sketch: [PendingApproval] for ["h1"], [Rejected] for
    every other hash. *)
Definition sketch_lookup (h : string) (w : unit) : option Sketch.TxStatus * unit :=
  (if String.eqb h "h1" then Some Sketch.PendingApproval else Some Sketch.Rejected, w).

(** The store after a pending transaction was added and then reported
    rejected through [updateStatus]. *)
Definition pinned : Store := updateStatus "h1" Rejected one_pending.

(** The initial store after [updateStatus] for a hash it does not hold. *)
Definition armed : Store := updateStatus "h1" Rejected store.

End Pins.

(** ** app/src/store/StoreAlerts.re *)

Module StoreAlerts.

(** [int] is a 32-bit integer: [a + b] compiles to [a + b | 0]. *)
Definition int_wrap (z : Z) : Z :=
  ((z + 2147483648) mod 4294967296 - 2147483648)%Z.

Definition int_add (a b : Z) : Z := int_wrap (a + b).

Section Alerts.

(** [Molecule.Alert.severity]. *)
Variable severity_t : Type.

Record alert : Type := mkAlert
  { severity : severity_t;
    message : string;
    id : Z }.

Inductive action : Type :=
| Show (a : alert)
| Remove (a : alert).

Record state : Type := mkState
  { idCounter : Z;
    all : list alert }.

Definition initialState : state := {| idCounter := 0; all := [] |}.

Definition reducer (st : state) (act : action) : state :=
  match act with
  | Show a =>
      {| idCounter := int_add (idCounter st) 1;
         all := all st ++ [ {| severity := severity a;
                               message := message a;
                               id := idCounter st |} ] |}
  | Remove a =>
      {| idCounter := idCounter st;
         all := filter (fun x => negb (Z.eqb (id a) (id x))) (all st) |}
  end.

(** The actions dispatched so far, applied in order. *)
Definition dispatched (acts : list action) (st : state) : state :=
  fold_left reducer acts st.

(** How many of the actions are [Show]. *)
Fixpoint shows (acts : list action) : nat :=
  match acts with
  | [] => O
  | Show _ :: rest => S (shows rest)
  | Remove _ :: rest => shows rest
  end.

(** The counter is not negative, every alert shown has an id below it,
    and no two have the same id. *)
Definition fresh_ids (st : state) : Prop :=
  (0 <= idCounter st)%Z
  /\ Forall (fun a => (0 <= id a < idCounter st)%Z) (all st)
  /\ NoDup (map id (all st)).

End Alerts.

Arguments mkAlert {severity_t} severity message id.
Arguments severity {severity_t} a.
Arguments message {severity_t} a.
Arguments id {severity_t} a.
Arguments Show {severity_t} a.
Arguments Remove {severity_t} a.
Arguments mkState {severity_t} idCounter all.
Arguments idCounter {severity_t} s.
Arguments all {severity_t} s.
Arguments initialState {severity_t}.
Arguments reducer {severity_t} st act.
Arguments dispatched {severity_t} acts st.
Arguments shows {severity_t} acts.
Arguments fresh_ids {severity_t} st.

(** Sample alerts, with severities numbered. *)
Definition warning : alert nat := {| severity := 1%nat; message := "disk is full"; id := 42 |}.
Definition notice : alert nat := {| severity := 0%nat; message := "saved"; id := 42 |}.

End StoreAlerts.

(** ** The navigation history

    The module keeps the routes visited in a store, the loaded active
    route in another, and mirrors the history in [window.history].  Routes
    and their loading are defined elsewhere: [load r] stands for
    [screen.withLock(() => loadRoute(r))] and is [None] when that promise
    is rejected.  Calls are awaited one after the other. *)

Module Navigation.

(** [a.slice(-n)]: the last [n] elements, all of them when there are fewer. *)
Definition slice_last {A : Type} (n : nat) (a : list A) : list A :=
  skipn (List.length a - n) a.

(** [a.slice(0, -n)]: all but the last [n] elements. *)
Definition slice_but_last {A : Type} (n : nat) (a : list A) : list A :=
  firstn (List.length a - n) a.

Inductive Failure : Type :=
| EmptyHistory
| LoadRejected.

Section Router.

Variables Route LoadedRoute : Type.
Variable DEFAULT_ROUTE : Route.
Variable INITIAL_ROUTE : LoadedRoute.
Variable load : Route -> option LoadedRoute.
Variable routeToPath : Route -> string.

(** The two stores, and what [window.history.replaceState] last set
    ([window.history.state] is [null] until then). *)
Record World : Type := mkWorld
  { historyStore : list Route;
    activeRouteStore : LoadedRoute;
    window_history_state : option (list Route);
    window_location : option string }.

(** The module as loaded. *)
Definition loaded (saved : option (list Route)) : World :=
  {| historyStore := [DEFAULT_ROUTE];
     activeRouteStore := INITIAL_ROUTE;
     window_history_state := saved;
     window_location := None |}.

Definition setHistory (history : list Route) (w : World) : Failure + World :=
  if Nat.eqb (List.length history) 0 then inl EmptyHistory
  else
    match nth_error (slice_last 1 history) 0 with
    | None => inl EmptyHistory
    | Some targetRoute =>
        match load targetRoute with
        | None => inl LoadRejected
        | Some loadedRoute =>
            inr {| historyStore := history;
                   activeRouteStore := loadedRoute;
                   window_history_state := Some history;
                   window_location := Some (routeToPath targetRoute) |}
        end
    end.

Definition push (newRoute : Route) (w : World) : Failure + World :=
  setHistory (slice_last 10 (historyStore w ++ [newRoute])) w.

Definition pop (w : World) : Failure + World :=
  if Nat.ltb 1 (List.length (historyStore w))
  then setHistory (slice_but_last 1 (historyStore w)) w
  else inr w.

Definition initialize (w : World) : Failure + World :=
  setHistory (match window_history_state w with
              | None => [DEFAULT_ROUTE]
              | Some saved => saved
              end) w.

(** Navigation requests made one after the other. *)
Inductive Request : Type :=
| Push (newRoute : Route)
| Pop.

Definition request (r : Request) (w : World) : Failure + World :=
  match r with
  | Push newRoute => push newRoute w
  | Pop => pop w
  end.

(** A rejected request leaves the stores as they were. *)
Definition after (w : World) (r : Request) : World :=
  match request r w with
  | inr w' => w'
  | inl _ => w
  end.

Definition navigate (rs : list Request) (w : World) : World :=
  fold_left after rs w.

(** The active route, the window state and the location all belong to
    the last entry of the history. *)
Definition in_step (w : World) : Prop :=
  exists older current,
    historyStore w = older ++ [current]
    /\ load current = Some (activeRouteStore w)
    /\ window_history_state w = Some (historyStore w)
    /\ window_location w = Some (routeToPath current).

End Router.

Arguments mkWorld {Route LoadedRoute}.
Arguments historyStore {Route LoadedRoute} w.
Arguments activeRouteStore {Route LoadedRoute} w.
Arguments window_history_state {Route LoadedRoute} w.
Arguments window_location {Route LoadedRoute} w.
Arguments loaded {Route LoadedRoute} DEFAULT_ROUTE INITIAL_ROUTE saved.
Arguments setHistory {Route LoadedRoute} load routeToPath history w.
Arguments push {Route LoadedRoute} load routeToPath newRoute w.
Arguments pop {Route LoadedRoute} load routeToPath w.
Arguments initialize {Route LoadedRoute} DEFAULT_ROUTE load routeToPath w.
Arguments Push {Route} newRoute.
Arguments Pop {Route}.
Arguments request {Route LoadedRoute} load routeToPath r w.
Arguments after {Route LoadedRoute} load routeToPath w r.
Arguments navigate {Route LoadedRoute} load routeToPath rs w.
Arguments in_step {Route LoadedRoute} load routeToPath w.

(** Routes named by numbers, each loading to itself but [13]. *)
Definition unlucky (r : nat) : option nat :=
  if Nat.eqb r 13 then None else Some r.

Definition path_of (r : nat) : string :=
  if Nat.eqb r 0 then "/profile" else "/elsewhere".

End Navigation.

(** ** The code view store

    The [derived] store [code] that follows [ui/src/transaction.ts]: its
    callback reads the current project, the selected peer and the selected
    revision and calls [set] with the view to show.  The project, source
    and remote modules are defined elsewhere; a promise is taken at its
    outcome, [None] when it is rejected. *)

Module CodeView.

(** [remote.Data<T>], by its [status]. *)
Inductive Data (T E : Type) : Type :=
| NotAsked
| Loading
| Success (data : T)
| Error (error : E).

Arguments NotAsked {T E}.
Arguments Loading {T E}.
Arguments Success {T E} data.
Arguments Error {T E} error.

Section Code.

Variables Urn PeerId Revision Project User Tree LastCommit Readme Blob Err : Type.
Variable urn : Project -> Urn.
Variable peerId : User -> PeerId.
Variable info_lastCommit : Tree -> LastCommit.

(** [source.fetchObject(source.ObjectType.Tree, urn, peerId, "", revision)]. *)
Variable fetchObject : Urn -> PeerId -> string -> Revision -> option Tree.

(** [source.readme(urn, peerId, revision, tree)], a readme or [null]. *)
Variable readme : Urn -> PeerId -> Revision -> Tree -> option (option Readme).

(** [type Code = File | Root]. *)
Inductive Code : Type :=
| File (peer : User) (revision : Revision) (file : Blob + Err) (project : Project)
| Root (peer : User) (revision : Revision) (lastCommit : LastCommit)
       (project : Project) (readme : option Readme).

(** What one run of the callback does: the tree requests it sends and the
    values it hands to [set], in order. *)
Record Run : Type := mkRun
  { requests : list (Urn * PeerId * string * Revision);
    sets : list (Data Code Err) }.

Definition callback (currentProject : Data Project Err)
  (selectedPeer : option User) (selectedRevision : option Revision) : Run :=
  let first :=
    match currentProject with
    | NotAsked => [NotAsked]
    | Loading => [Loading]
    | _ => []
    end in
  match selectedPeer, selectedRevision with
  | Some peer, Some revision =>
      match currentProject with
      | Success project =>
          let request := (urn project, peerId peer, "", revision) in
          match fetchObject (urn project) (peerId peer) "" revision with
          | Some tree =>
              match readme (urn project) (peerId peer) revision tree with
              | Some file =>
                  {| requests := [request];
                     sets := first ++
                       [Success (Root peer revision (info_lastCommit tree) project file)] |}
              | None => {| requests := [request]; sets := first |}
              end
          | None => {| requests := [request]; sets := first |}
          end
      | _ => {| requests := []; sets := first |}
      end
  | _, _ => {| requests := []; sets := first |}
  end.

(** The value of the derived store after a run: the last value set, or
    the value it had. *)
Definition code (previous : Data Code Err) (r : Run) : Data Code Err :=
  last (sets r) previous.

End Code.

Arguments File {Revision Project User LastCommit Readme Blob Err}.
Arguments Root {Revision Project User LastCommit Readme Blob Err}.
Arguments mkRun {Urn PeerId Revision Project User LastCommit Readme Blob Err}.
Arguments requests {Urn PeerId Revision Project User LastCommit Readme Blob Err} r.
Arguments sets {Urn PeerId Revision Project User LastCommit Readme Blob Err} r.
Arguments callback {Urn PeerId Revision Project User Tree LastCommit Readme Blob Err}.
Arguments code {Urn PeerId Revision Project User LastCommit Readme Blob Err} previous r.

End CodeView.

(** ** The receivers of a pool *)

Module Pool.

(** [a.includes(x)] on an array of strings. *)
Definition includes (a : list string) (x : string) : bool :=
  existsb (String.eqb x) a.

(** The calls [updateReceiverAddresses] makes on the pool contract:
    [poolContract.setReceiver(address, 1)] for each of [newAddresses]. *)
Definition updateReceiverAddresses (receiverAddresses addresses : list string)
  : list (string * Z) :=
  let newAddresses := filter (fun x => negb (includes receiverAddresses x)) addresses in
  map (fun address => (address, 1%Z)) newAddresses.

End Pool.

(** ** Properties of the ledger *)

Module LedgerFacts.

Import Transaction Ledger.

(** *** Writes to a status leave everything else in place *)

Section Frame.

Variables (A : Type) (f : Tx -> A).
Hypothesis f_frame : forall tx s, f (set_status tx s) = f tx.

Lemma assign_first_frame h s l : map f (assign_first h s l) = map f l.
Proof using f_frame.
  induction l as [|tx rest IH]; simpl; [reflexivity|].
  destruct (String.eqb (hash tx) h); simpl.
  - now rewrite f_frame.
  - now rewrite IH.
Qed.

Lemma notify_frame subs v : map f (notify subs v) = map f v.
Proof using f_frame.
  unfold notify. revert v.
  induction subs as [|sub subs IH]; intros v; simpl; [reflexivity|].
  rewrite IH. apply assign_first_frame.
Qed.

Lemma forEach_refresh_frame {W} (lookup : string -> W -> option TxStatus * W) l w :
  map f (fst (fst (forEach_refresh lookup l w))) = map f l.
Proof using f_frame.
  revert w. induction l as [|tx rest IH]; intros w; simpl; [reflexivity|].
  unfold refresh_one.
  destruct (lookup (hash tx) w) as [answer w1].
  specialize (IH w1).
  destruct (forEach_refresh lookup rest w1) as [[rest' calls] w2].
  simpl in *. rewrite IH. f_equal.
  destruct answer as [s|]; [|reflexivity].
  destruct (truthy (Some s)); [apply f_frame | reflexivity].
Qed.

End Frame.

Lemma hash_frame tx s : hash (set_status tx s) = hash tx.
Proof. reflexivity. Qed.

Lemma inner_frame tx s : inner (set_status tx s) = inner tx.
Proof. reflexivity. Qed.

Lemma notify_length subs v : List.length (notify subs v) = List.length v.
Proof.
  rewrite <- (length_map hash (notify subs v)), <- (length_map hash v).
  f_equal. apply notify_frame, hash_frame.
Qed.

Lemma notify_nil v : notify [] v = v.
Proof. reflexivity. Qed.

(** *** What [add] retains *)

Lemma firstn_min_length {A} (l : list A) n :
  firstn (Nat.min (List.length l) n) l = firstn n l.
Proof.
  destruct (Nat.le_ge_cases (List.length l) n) as [H|H].
  - rewrite Nat.min_l by assumption.
    rewrite firstn_all. symmetry. now apply firstn_all2.
  - now rewrite Nat.min_r.
Qed.

Lemma firstn_firstn_app {A} n (l r : list A) :
  firstn n (firstn n l ++ r) = firstn n (l ++ r).
Proof.
  revert l; induction n as [|n IH]; intros [|x l]; simpl; try reflexivity.
  now rewrite IH.
Qed.

Lemma add_subscribers tx st : subscribers (add tx st) = subscribers st.
Proof. reflexivity. Qed.

Lemma add_hashes tx st :
  hashes (add tx st) = firstn 7 (hashes st ++ [hash tx]).
Proof.
  unfold hashes, add, cap, store_update, JS.set_length, JS.push.
  cbn [txs subscribers].
  rewrite (notify_frame _ hash hash_frame), firstn_min_length, <- firstn_map.
  rewrite (notify_frame _ hash hash_frame), map_app. reflexivity.
Qed.

Lemma add_txs_unsubscribed tx st :
  subscribers st = [] -> txs (add tx st) = firstn 7 (txs st ++ [tx]).
Proof.
  intros H. unfold add, cap, store_update, JS.set_length, JS.push.
  cbn [txs subscribers]. rewrite H, !notify_nil. apply firstn_min_length.
Qed.

Lemma adds_subscribers l st : subscribers (adds l st) = subscribers st.
Proof.
  unfold adds. revert st.
  induction l as [|tx l IH]; intros st; simpl; [reflexivity|].
  now rewrite IH.
Qed.

Lemma hashes_length st : List.length (hashes st) = List.length (txs st).
Proof. apply length_map. Qed.

Lemma add_length_le tx st : List.length (txs (add tx st)) <= 7.
Proof.
  rewrite <- hashes_length, add_hashes, length_firstn. lia.
Qed.

Lemma adds_hashes l :
  forall st, List.length (txs st) <= 7 ->
  hashes (adds l st) = firstn 7 (hashes st ++ map hash l).
Proof.
  unfold adds.
  induction l as [|tx l IH]; intros st Hl; simpl map; cbn [fold_left].
  - rewrite app_nil_r. symmetry. apply firstn_all2. now rewrite hashes_length.
  - rewrite IH by apply add_length_le.
    rewrite add_hashes, firstn_firstn_app, <- app_assoc. reflexivity.
Qed.

Lemma adds_txs_unsubscribed l :
  forall st, subscribers st = [] -> List.length (txs st) <= 7 ->
  txs (adds l st) = firstn 7 (txs st ++ l).
Proof.
  unfold adds.
  induction l as [|tx l IH]; intros st Hs Hl; cbn [fold_left].
  - rewrite app_nil_r. symmetry. now apply firstn_all2.
  - rewrite IH.
    + rewrite add_txs_unsubscribed by assumption.
      rewrite firstn_firstn_app, <- app_assoc. reflexivity.
    + now rewrite add_subscribers.
    + rewrite add_txs_unsubscribed by assumption.
      rewrite length_firstn. lia.
Qed.

(** C1 (the code departs from the claim: it keeps the oldest records).
    [add] appends the record and [cap] then shortens the array to its first
    seven elements, so from the empty store the retained records are the
    first seven added, in insertion order, and every later record is
    dropped by the very call that adds it: after adding [h1 .. h8] the
    store holds [h1 .. h7], not the most recent seven [h2 .. h8]. *)
Theorem add_beyond_capacity_keeps_oldest :
  (forall l, txs (adds l store) = firstn 7 l) /\
  hashes (adds eight store) = ["h1"; "h2"; "h3"; "h4"; "h5"; "h6"; "h7"] /\
  map hash (skipn 1 eight) = ["h2"; "h3"; "h4"; "h5"; "h6"; "h7"; "h8"].
Proof.
  split; [|split; reflexivity].
  intros l. now rewrite adds_txs_unsubscribed by (simpl; auto with arith).
Qed.

(** X1. In [transaction.ts], from the empty ledger, after any sequence of
    [add] calls (hence after each call of a longer sequence) the ledger
    holds [min (number of adds) 7] records, and so never more than seven,
    whatever has subscribed to the store. *)
Theorem add_length_min :
  forall subs l,
    List.length (txs (adds l (empty subs))) = Nat.min (List.length l) 7
    /\ List.length (txs (adds l (empty subs))) <= 7.
Proof.
  intros subs l.
  assert (E : List.length (txs (adds l (empty subs))) = Nat.min (List.length l) 7).
  { rewrite <- hashes_length, adds_hashes by (simpl; auto with arith).
    unfold hashes, empty; cbn [txs map app].
    rewrite length_firstn, length_map. apply Nat.min_comm. }
  split; [exact E | rewrite E; apply Nat.le_min_r].
Qed.

(** *** The refresh *)

Lemma updateAll_txs {W} (lookup : string -> W -> option TxStatus * W) st w :
  txs (fst (updateAll lookup st w))
  = notify (subscribers st) (fst (fst (forEach_refresh lookup (txs st) w))).
Proof.
  unfold updateAll.
  destruct (forEach_refresh lookup (txs st) w) as [[v calls] w']. reflexivity.
Qed.

Lemma updateAll_subscribers {W} (lookup : string -> W -> option TxStatus * W) st w :
  subscribers (fst (updateAll lookup st w)) = subscribers st.
Proof.
  unfold updateAll.
  destruct (forEach_refresh lookup (txs st) w) as [[v calls] w']. reflexivity.
Qed.

(** C5. Whatever the lookup answers, [updateAll] leaves the length of the
    ledger, the order of its records (their hashes, position by position)
    and the [inner] of every record as they were. *)
Theorem updateAll_frame :
  forall (W : Type) (lookup : string -> W -> option TxStatus * W) st w,
    List.length (txs (fst (updateAll lookup st w))) = List.length (txs st)
    /\ map hash (txs (fst (updateAll lookup st w))) = map hash (txs st)
    /\ map inner (txs (fst (updateAll lookup st w))) = map inner (txs st).
Proof.
  intros W lookup st w. rewrite updateAll_txs.
  assert (Hh : map hash (notify (subscribers st)
                 (fst (fst (forEach_refresh lookup (txs st) w))))
               = map hash (txs st)).
  { rewrite (notify_frame _ hash hash_frame).
    apply forEach_refresh_frame, hash_frame. }
  split; [|split].
  - rewrite <- (length_map hash), Hh. apply length_map.
  - exact Hh.
  - rewrite (notify_frame _ inner inner_frame).
    apply forEach_refresh_frame, inner_frame.
Qed.

(** *** What the refresh loop does to each record *)

Lemma truthy_defined s : truthy (Some s) = true.
Proof. destruct s; reflexivity. Qed.

Lemma refresh_one_assigned {W} (lookup : string -> W -> option TxStatus * W) tx w :
  refresh_one lookup tx w
  = (assigned tx (fst (lookup (hash tx) w)), fst (lookup (hash tx) w),
     snd (lookup (hash tx) w)).
Proof.
  unfold refresh_one.
  destruct (lookup (hash tx) w) as [[s|] w']; cbn [fst snd assigned].
  - now rewrite (truthy_defined s).
  - reflexivity.
Qed.

Lemma forEach_refresh_lookups {W} (lookup : string -> W -> option TxStatus * W) l :
  forall w,
    map fst (lookups lookup l w) = map hash l
    /\ refreshed lookup l w
       = map (fun p => assigned (fst p) (snd (snd p)))
             (combine l (lookups lookup l w)).
Proof.
  unfold lookups, refreshed.
  induction l as [|tx rest IH]; intros w; cbn [forEach_refresh].
  - split; reflexivity.
  - rewrite refresh_one_assigned.
    destruct (IH (snd (lookup (hash tx) w))) as [IHc IHv].
    destruct (forEach_refresh lookup rest (snd (lookup (hash tx) w)))
      as [[rest' calls] w2].
    cbn [fst snd map combine] in *. split.
    + now rewrite IHc.
    + now rewrite IHv.
Qed.

Lemma refreshed_nth {W} (lookup : string -> W -> option TxStatus * W) l :
  forall w i tx,
    nth_error l i = Some tx ->
    exists answer,
      nth_error (lookups lookup l w) i = Some (hash tx, answer)
      /\ nth_error (refreshed lookup l w) i = Some (assigned tx answer).
Proof.
  unfold lookups, refreshed.
  induction l as [|r rest IH]; intros w i tx Hi.
  - destruct i; discriminate.
  - cbn [forEach_refresh]. rewrite refresh_one_assigned.
    specialize (IH (snd (lookup (hash r) w))).
    destruct (forEach_refresh lookup rest (snd (lookup (hash r) w)))
      as [[rest' calls] w2].
    cbn [fst snd] in *. destruct i as [|i]; simpl in *.
    + injection Hi as <-. eexists. split; reflexivity.
    + now apply IH.
Qed.

Lemma assign_first_other h s l :
  forall i tx,
    nth_error l i = Some tx -> hash tx <> h ->
    nth_error (assign_first h s l) i = Some tx.
Proof.
  induction l as [|r rest IH]; intros i tx Hi Hne.
  - destruct i; discriminate.
  - simpl. destruct (String.eqb_spec (hash r) h) as [E|N].
    + destruct i as [|i]; simpl in *; [|exact Hi].
      injection Hi as <-. contradiction.
    + destruct i as [|i]; simpl in *; [exact Hi|]. now apply IH.
Qed.

Lemma notify_other subs :
  forall v i tx,
    nth_error v i = Some tx ->
    Forall (fun sub => sub_hash sub <> hash tx) subs ->
    nth_error (notify subs v) i = Some tx.
Proof.
  unfold notify.
  induction subs as [|sub subs IH]; intros v i tx Hi Hsubs; simpl; [exact Hi|].
  inversion Hsubs as [|? ? Hsub Hrest]; subst.
  apply IH; [|exact Hrest].
  apply assign_first_other; [exact Hi|]. intros E. now apply Hsub.
Qed.

Lemma assigned_hash tx answer : hash (assigned tx answer) = hash tx.
Proof. destruct answer; reflexivity. Qed.

Lemma updateAll_unsubscribed {W} (lookup : string -> W -> option TxStatus * W) st w :
  subscribers st = [] ->
  txs (fst (updateAll lookup st w)) = refreshed lookup (txs st) w.
Proof.
  intros H. rewrite updateAll_txs, H. reflexivity.
Qed.

Example updateAll_assigns_PendingApproval :
  txs (fst (updateAll (always PendingApproval) one_pending tt))
  = [tx_of "h1" PendingApproval].
Proof. reflexivity. Qed.

Example updateAll_keeps_on_no_answer :
  txs (fst (updateAll never one_pending tt)) = [tx_of "h1" AwaitingInclusion].
Proof. reflexivity. Qed.

(** *** The polling timer *)

Lemma timer_fires_nothing {W} (lookup : string -> W -> option TxStatus * W) n :
  forall st w, timer_fires lookup n st w = (st, w).
Proof.
  induction n as [|n IH]; intros st w; simpl; [reflexivity | apply IH].
Qed.

(** C8 (the code departs from the claim: the timer refreshes nothing).
    The callback given to [setInterval] is [() => updateAll]: a firing
    returns the function and does not call it, so any number of firings
    leaves the store and the lookup's world as they were.  On the store
    holding one record awaiting inclusion, with a lookup that answers
    [Included], three firings leave the record awaiting inclusion, where a
    call of [updateAll] would set it to [Included]. *)
Theorem poll_timer_never_refreshes :
  (forall (W : Type) (lookup : string -> W -> option TxStatus * W) n st w,
      timer_fires lookup n st w = (st, w))
  /\ txs (fst (timer_fires (always Included) 3 one_pending tt))
     = [tx_of "h1" AwaitingInclusion]
  /\ txs (fst (updateAll (always Included) one_pending tt))
     = [tx_of "h1" Included].
Proof.
  split; [|split; reflexivity].
  intros W lookup n st w. apply timer_fires_nothing.
Qed.

(** *** Smart constructors *)

(** C9 (the code departs from the claim at block number 0).  The
    constructors test [txc.blockNumber] for truthiness, so a transaction
    the chain client reports in block 0 has its block number present and
    is still created awaiting inclusion. *)
Lemma topUp_in_block_zero_awaits_inclusion :
  blockNumber in_block_zero = Some 0%Z
  /\ status (topUp in_block_zero) = AwaitingInclusion.
Proof. split; reflexivity. Qed.

(** What the smart constructors compute: the hash of the contract
    transaction, and [Included] exactly when [blockNumber] is truthy. *)
Theorem constructors_hash_and_status :
  forall txc,
    Forall (fun make =>
              hash (make txc) = txc_hash txc
              /\ status (make txc)
                 = match blockNumber txc with
                   | Some n => if Z.eqb n 0 then AwaitingInclusion else Included
                   | None => AwaitingInclusion
                   end)
           constructors.
Proof.
  intros txc. unfold constructors.
  repeat constructor; simpl; unfold blockNumber_truthy, JS.truthy_number;
    destruct (blockNumber txc) as [n|]; try reflexivity;
    destruct (Z.eqb n 0); reflexivity.
Qed.

(** *** The built-in lookup *)

Lemma randomInt_bounds r :
  (0 <= r)%Q -> (r < 1)%Q -> (0 <= randomInt (inject_Z 4) r < 4)%Z.
Proof.
  intros H0 H1. unfold randomInt. rewrite Qfloor_Z. split.
  - change 0%Z with (Qfloor (inject_Z 0)).
    apply Qfloor_resp_le.
    apply Qmult_le_0_compat; [exact H0 | discriminate].
  - rewrite Zlt_Qlt.
    apply Qle_lt_trans with (r * inject_Z 4)%Q; [apply Qfloor_le|].
    setoid_replace (inject_Z 4) with (1 * inject_Z 4)%Q at 2 by ring.
    apply Qmult_lt_compat_r; [reflexivity | exact H1].
Qed.

Lemma statuses_get i :
  (0 <= i < 4)%Z -> exists s, JS.array_get statuses i = Some s /\ In s statuses.
Proof.
  intros H.
  assert (E : i = 0%Z \/ i = 1%Z \/ i = 2%Z \/ i = 3%Z) by lia.
  destruct E as [-> | [-> | [-> | ->]]]; eexists; (split; [reflexivity|]);
    simpl; tauto.
Qed.

(** C10. At every draw [0 <= r < 1] of [Math.random] the index computed by
    [randomInt] lies within the four-element array, so [lookupStatus]
    returns one of the four statuses and never [undefined], for every
    hash; a round of the refresh loop with the built-in lookup therefore
    always takes the assignment branch. *)
Theorem lookupStatus_never_undefined :
  forall (rnd : nat -> Q),
    (0 <= rnd O)%Q -> (rnd O < 1)%Q ->
    exists s,
      In s [PendingApproval; AwaitingInclusion; Included; Rejected]
      /\ (forall h, lookupStatus h (rnd O) = Some s)
      /\ (forall tx,
            refresh_one lookupStatus_random tx rnd
            = (set_status tx s, Some s, fun n => rnd (S n))).
Proof.
  intros rnd H0 H1.
  destruct (statuses_get _ (randomInt_bounds (rnd O) H0 H1)) as (s & Hs & Hin).
  exists s. split; [exact Hin|]. split.
  - intros h. exact Hs.
  - intros tx. rewrite refresh_one_assigned.
    unfold lookupStatus_random, lookupStatus; cbn [fst snd].
    change (inject_Z (Z.of_nat (List.length statuses))) with (inject_Z 4).
    rewrite Hs. reflexivity.
Qed.

Lemma lookupStatus_never_undefined_witness :
  exists s,
    In s [PendingApproval; AwaitingInclusion; Included; Rejected]
    /\ (forall h, lookupStatus h (three_quarters O) = Some s)
    /\ (forall tx,
          refresh_one lookupStatus_random tx three_quarters
          = (set_status tx s, Some s, fun n => three_quarters (S n))).
Proof.
  apply (lookupStatus_never_undefined three_quarters).
  - discriminate.
  - reflexivity.
Defined.

Example lookupStatus_at_three_quarters h : lookupStatus h (3 # 4)%Q = Some Rejected.
Proof. reflexivity. Qed.

(** *** Which writes reach a record *)

Section Spared.

Variables (h0 : string) (s0 : TxStatus).

Lemma assign_first_record_at h s l :
  spares h0 s0 h s ->
  forall i, record_at i h0 s0 l -> record_at i h0 s0 (assign_first h s l).
Proof.
  intros Hsp. induction l as [|tx rest IH]; intros i (r & Hr & Hh & Hs).
  - destruct i; discriminate.
  - simpl. destruct (String.eqb_spec (hash tx) h) as [E|N].
    + destruct i as [|i]; simpl in *.
      * injection Hr as <-. exists (set_status tx s). split; [reflexivity|].
        split; [exact Hh|]. simpl. apply Hsp. congruence.
      * exists r. auto.
    + destruct i as [|i]; simpl in *.
      * exists r. auto.
      * apply IH. exists r. auto.
Qed.

Lemma notify_record_at subs :
  Forall (subscriber_spares h0 s0) subs ->
  forall v i, record_at i h0 s0 v -> record_at i h0 s0 (notify subs v).
Proof.
  unfold notify.
  induction 1 as [|sub subs Hsub _ IH]; intros v i Hv; simpl; [exact Hv|].
  apply IH. now apply assign_first_record_at.
Qed.

Section Lookup.

Context {W : Type} (lookup : string -> W -> option TxStatus * W).
Hypothesis lookup_spares :
  forall w, fst (lookup h0 w) = None \/ fst (lookup h0 w) = Some s0.

Lemma refreshed_record_at l :
  forall w i, record_at i h0 s0 l -> record_at i h0 s0 (refreshed lookup l w).
Proof using lookup_spares.
  unfold refreshed.
  induction l as [|tx rest IH]; intros w i (r & Hr & Hh & Hs).
  - destruct i; discriminate.
  - cbn [forEach_refresh]. rewrite refresh_one_assigned.
    specialize (IH (snd (lookup (hash tx) w))).
    destruct (forEach_refresh lookup rest (snd (lookup (hash tx) w)))
      as [[rest' calls] w2].
    cbn [fst snd] in *. destruct i as [|i]; simpl in *.
    + injection Hr as <-. rewrite Hh.
      destruct (lookup_spares w) as [-> | ->]; simpl.
      * exists tx. auto.
      * exists (set_status tx s0). auto.
    + apply IH. exists r. auto.
Qed.

Lemma step_record_at c st w i :
  call_spares h0 s0 c ->
  Forall (subscriber_spares h0 s0) (subscribers st) ->
  record_at i h0 s0 (txs st) ->
  Forall (subscriber_spares h0 s0) (subscribers (fst (step lookup c (st, w))))
  /\ record_at i h0 s0 (txs (fst (step lookup c (st, w)))).
Proof using lookup_spares.
  intros Hc Hsubs Hr. destruct c as [tx|h s|]; cbn [step fst snd].
  - destruct Hc.
  - unfold updateStatus, store_subscribe, run_subscriber; cbn [txs subscribers].
    split.
    + apply Forall_app. split; [exact Hsubs|]. constructor; [exact Hc|constructor].
    + now apply assign_first_record_at.
  - rewrite updateAll_subscribers, updateAll_txs. split; [exact Hsubs|].
    apply notify_record_at; [exact Hsubs|]. now apply refreshed_record_at.
Qed.

Lemma run_record_at cs :
  Forall (call_spares h0 s0) cs ->
  forall st w i,
    Forall (subscriber_spares h0 s0) (subscribers st) ->
    record_at i h0 s0 (txs st) ->
    record_at i h0 s0 (txs (fst (run lookup cs (st, w)))).
Proof using lookup_spares.
  unfold run.
  induction 1 as [|c cs Hc _ IH]; intros st w i Hsubs Hr; simpl; [exact Hr|].
  destruct (step_record_at c st w i Hc Hsubs Hr) as [Hsubs' Hr'].
  destruct (step lookup c (st, w)) as [st' w'] eqn:E.
  now apply IH.
Qed.

End Lookup.

End Spared.

Lemma record_at_status i h0 s0 st :
  record_at i h0 s0 (txs st) <-> hash_at i st = Some h0 /\ status_at i st = Some s0.
Proof.
  unfold record_at, hash_at, status_at. split.
  - intros (tx & -> & <- & <-). split; reflexivity.
  - intros [Hh Hs]. destruct (nth_error (txs st) i) as [tx|]; [|discriminate].
    exists tx. simpl in *. split; [reflexivity|]. split; congruence.
Qed.

(** C2 (the code departs from the claim: a terminal status is
    overwritten).  On the store holding one record already [Included],
    [updateStatus] for its hash sets it back to [AwaitingInclusion], and a
    refresh whose lookup answers [Rejected] sets it to [Rejected]:
    nothing in either operation looks at the status a record has. *)
Lemma terminal_status_overwritten :
  status_at 0 one_included = Some Included
  /\ status_at 0 (updateStatus "h1" AwaitingInclusion one_included)
     = Some AwaitingInclusion
  /\ status_at 0 (fst (updateAll (always Rejected) one_included tt))
     = Some Rejected.
Proof. repeat split. Qed.

(** X23. A record keeps its hash and its status across every sequence of
    [updateStatus] and [updateAll] calls in which every [updateStatus]
    call naming its hash (the earlier ones whose callbacks are still
    subscribed as well) carries that same status and the lookup answers
    its hash with nothing or with that same status. *)
Theorem status_kept_when_spared :
  forall (W : Type) (lookup : string -> W -> option TxStatus * W)
         (h0 : string) (s0 : TxStatus) (i : nat) (cs : list Call) st w,
    hash_at i st = Some h0 ->
    status_at i st = Some s0 ->
    (forall w', fst (lookup h0 w') = None \/ fst (lookup h0 w') = Some s0) ->
    Forall (subscriber_spares h0 s0) (subscribers st) ->
    Forall (call_spares h0 s0) cs ->
    hash_at i (fst (run lookup cs (st, w))) = Some h0
    /\ status_at i (fst (run lookup cs (st, w))) = Some s0.
Proof.
  intros W lookup h0 s0 i cs st w Hh Hs Hl Hsubs Hcs.
  apply record_at_status.
  apply run_record_at; try assumption.
  apply record_at_status. now split.
Qed.

Lemma status_kept_when_spared_witness :
  hash_at 0 (fst (run never
     [CallUpdateStatus "h2" Rejected; CallUpdateAll; CallUpdateStatus "h1" Included]
     (one_included, tt))) = Some "h1"
  /\ status_at 0 (fst (run never
     [CallUpdateStatus "h2" Rejected; CallUpdateAll; CallUpdateStatus "h1" Included]
     (one_included, tt))) = Some Included.
Proof.
  apply (status_kept_when_spared unit never "h1" Included 0).
  - reflexivity.
  - reflexivity.
  - intros w'. left. reflexivity.
  - constructor.
  - repeat constructor; unfold spares; intros E; try reflexivity; discriminate E.
Defined.

(** *** The hashes a run of calls retains *)

Section Reachable.

Context {W : Type} (lookup : string -> W -> option TxStatus * W).

Lemma updateStatus_hashes h s st : hashes (updateStatus h s st) = hashes st.
Proof. apply assign_first_frame, hash_frame. Qed.

Lemma updateAll_hashes st w : hashes (fst (updateAll lookup st w)) = hashes st.
Proof.
  unfold hashes. rewrite updateAll_txs, (notify_frame _ hash hash_frame).
  apply forEach_refresh_frame, hash_frame.
Qed.

Lemma step_hashes c st w :
  hashes (fst (step lookup c (st, w)))
  = match c with
    | CallAdd tx => firstn 7 (hashes st ++ [hash tx])
    | _ => hashes st
    end.
Proof.
  destruct c as [tx|h s|]; cbn [step fst snd].
  - apply add_hashes.
  - apply updateStatus_hashes.
  - apply updateAll_hashes.
Qed.

Lemma run_hashes cs :
  forall st w,
    List.length (txs st) <= 7 ->
    hashes (fst (run lookup cs (st, w)))
    = firstn 7 (hashes st ++ map hash (added cs)).
Proof.
  unfold run.
  induction cs as [|c cs IH]; intros st w Hl; cbn [fold_left].
  - simpl added. simpl map. rewrite app_nil_r. symmetry.
    apply firstn_all2. now rewrite hashes_length.
  - pose proof (step_hashes c st w) as Hc.
    destruct (step lookup c (st, w)) as [st' w'].
    cbn [fst] in Hc. rewrite IH.
    + rewrite Hc. destruct c as [tx|h s|]; cbn [added map].
      * rewrite firstn_firstn_app, <- app_assoc. reflexivity.
      * reflexivity.
      * reflexivity.
    + rewrite <- hashes_length, Hc.
      destruct c; [rewrite length_firstn; lia | | ]; now rewrite hashes_length.
Qed.

End Reachable.

Lemma NoDup_firstn {A} n (l : list A) : NoDup l -> NoDup (firstn n l).
Proof.
  intros H. rewrite <- (firstn_skipn n l) in H.
  now apply NoDup_app_remove_r in H.
Qed.

(** C7 (the claim fails: [add] retains a hash that is already there). *)
Lemma add_retains_duplicate_hash :
  hashes (fst (run never same_hash_twice (store, tt))) = ["h1"; "h1"].
Proof. reflexivity. Qed.

(** C7, amended.  The ledger does not enforce unique hashes: [add]
    retains a record whose hash is already there.  In every state reached
    from the empty ledger by [add], [updateStatus] and [updateAll] calls,
    no two retained records have the same hash provided the records added
    had pairwise distinct hashes. *)
Theorem hashes_unique_when_added_unique :
  forall (W : Type) (lookup : string -> W -> option TxStatus * W) cs w,
    NoDup (map hash (added cs)) ->
    NoDup (hashes (fst (run lookup cs (store, w)))).
Proof.
  intros W lookup cs w Hnd.
  rewrite run_hashes by (simpl; auto with arith).
  now apply NoDup_firstn.
Qed.

Lemma hashes_unique_when_added_unique_witness :
  NoDup (hashes (fst (run (always Rejected) distinct_hashes (store, tt)))).
Proof.
  apply (hashes_unique_when_added_unique unit (always Rejected) distinct_hashes tt).
  simpl. repeat constructor; simpl; intuition discriminate.
Defined.

(** *** The sketch *)

(** In the sketch [addTx] only pushes, so the ledger grows with every
    call; the bound of five holds once [cap] has run. *)
Remark sketch_addTx_then_cap :
  forall l tx,
    List.length (Sketch.addTx tx l) = S (List.length l)
    /\ List.length (Sketch.cap (Sketch.addTx tx l))
       = Nat.min (S (List.length l)) 5.
Proof.
  intros l tx. unfold Sketch.addTx, Sketch.cap, JS.push, JS.set_length.
  split; rewrite ?firstn_min_length, ?length_firstn, !length_app;
    cbn [List.length]; lia.
Qed.

(** In the sketch [TxStatus] is numeric and [PendingApproval] is 0, which
    the test [if (newStatus)] takes for no answer: the loop never assigns
    [PendingApproval]. *)
Remark sketch_updateAll_skips_PendingApproval :
  forall tx,
    Sketch.updateAll (fun _ (w : unit) => (Some Sketch.PendingApproval, w)) [tx] tt
    = ([tx], tt).
Proof. reflexivity. Qed.

End LedgerFacts.

(** ** Further properties of [transaction.ts] *)

Module LedgerMore.

Import Transaction Ledger Pins LedgerFacts.

(** *** Writes by hash *)

Lemma assign_first_same h s s' l :
  assign_first h s (assign_first h s' l) = assign_first h s l.
Proof.
  induction l as [|tx rest IH]; simpl; [reflexivity|].
  destruct (String.eqb_spec (hash tx) h) as [E|N]; simpl.
  - rewrite E, String.eqb_refl. reflexivity.
  - destruct (String.eqb_spec (hash tx) h); [contradiction|]. now rewrite IH.
Qed.

Lemma assign_first_comm h h' s s' l :
  h <> h' ->
  assign_first h s (assign_first h' s' l) = assign_first h' s' (assign_first h s l).
Proof.
  intros Hne. induction l as [|tx rest IH]; simpl; [reflexivity|].
  destruct (String.eqb_spec (hash tx) h') as [E'|N'];
    destruct (String.eqb_spec (hash tx) h) as [E|N]; simpl.
  - congruence.
  - destruct (String.eqb_spec (hash tx) h); [contradiction|].
    destruct (String.eqb_spec (hash tx) h'); [reflexivity|contradiction].
  - destruct (String.eqb_spec (hash tx) h); [|contradiction].
    destruct (String.eqb_spec (hash tx) h'); [contradiction|reflexivity].
  - destruct (String.eqb_spec (hash tx) h); [contradiction|].
    destruct (String.eqb_spec (hash tx) h'); [contradiction|]. now rewrite IH.
Qed.

Lemma firstn_assign_first h s n :
  forall l, firstn n (assign_first h s l) = assign_first h s (firstn n l).
Proof.
  induction n as [|n IH]; intros [|tx rest]; simpl; try reflexivity.
  destruct (String.eqb (hash tx) h); simpl; [reflexivity|]. now rewrite IH.
Qed.

Lemma firstn_notify subs n :
  forall v, firstn n (notify subs v) = notify subs (firstn n v).
Proof.
  unfold notify. induction subs as [|sub subs IH]; intros v; simpl; [reflexivity|].
  rewrite IH. unfold run_subscriber. now rewrite firstn_assign_first.
Qed.

Lemma notify_snoc subs sub v :
  notify (subs ++ [sub]) v = run_subscriber (notify subs v) sub.
Proof. unfold notify. now rewrite fold_left_app. Qed.

Lemma notify_cons sub subs v :
  notify (sub :: subs) v
  = notify subs (assign_first (sub_hash sub) (sub_status sub) v).
Proof. reflexivity. Qed.

(** A later run of a callback absorbs an earlier run of the same one. *)
Lemma notify_absorbs h s subs :
  forall v,
    assign_first h s (notify subs (assign_first h s v))
    = assign_first h s (notify subs v).
Proof.
  induction subs as [|y subs IH]; intros v.
  - apply assign_first_same.
  - rewrite !notify_cons.
    destruct (string_dec (sub_hash y) h) as [E|N].
    + rewrite E, assign_first_same. reflexivity.
    + rewrite (assign_first_comm _ _ _ _ _ N). apply IH.
Qed.

Lemma notify_idempotent subs :
  forall v, notify subs (notify subs v) = notify subs v.
Proof.
  induction subs as [|sub subs IH] using rev_ind; intros v; [reflexivity|].
  rewrite !notify_snoc. unfold run_subscriber.
  rewrite notify_absorbs, IH. reflexivity.
Qed.

(** *** What [add] and [cap] store *)

Lemma add_txs tx st :
  txs (add tx st) = notify (subscribers st) (firstn 7 (txs st ++ [tx])).
Proof.
  unfold add, cap, store_update, JS.set_length, JS.push.
  cbn [txs subscribers].
  rewrite firstn_min_length, firstn_notify. apply notify_idempotent.
Qed.

Lemma cap_txs st :
  txs (cap st) = notify (subscribers st) (firstn 7 (txs st)).
Proof.
  unfold cap, store_update, JS.set_length. cbn [txs subscribers].
  now rewrite firstn_min_length.
Qed.

Lemma store_eq (a b : Store) :
  txs a = txs b -> subscribers a = subscribers b -> a = b.
Proof. destruct a, b; simpl; intros -> ->; reflexivity. Qed.

(** X4. Capping twice is capping once, in every store. *)
Theorem cap_idempotent : forall st, cap (cap st) = cap st.
Proof.
  intros st. apply store_eq; [|reflexivity].
  rewrite (cap_txs (cap st)). change (subscribers (cap st)) with (subscribers st).
  rewrite cap_txs, firstn_notify, firstn_firstn, Nat.min_id.
  apply notify_idempotent.
Qed.

(** *** Stores that can be reached *)

Section Reached.

Context {W : Type} (lookup : string -> W -> option TxStatus * W).

Lemma step_settled c st w :
  settled st -> settled (fst (step lookup c (st, w))).
Proof.
  unfold settled. intros Hs. destruct c as [tx|h s|]; cbn [step fst snd].
  - rewrite add_subscribers, add_txs. apply notify_idempotent.
  - unfold updateStatus, store_subscribe, run_subscriber. cbn [txs subscribers].
    rewrite notify_snoc. unfold run_subscriber. cbn [sub_hash sub_status].
    now rewrite notify_absorbs, Hs.
  - rewrite updateAll_subscribers, updateAll_txs. apply notify_idempotent.
Qed.

Lemma step_subscribers c st w :
  subscribers (fst (step lookup c (st, w))) = subscribers st ++ updates [c].
Proof.
  destruct c as [tx|h s|]; cbn [step fst snd updates].
  - now rewrite add_subscribers, app_nil_r.
  - reflexivity.
  - now rewrite updateAll_subscribers, app_nil_r.
Qed.

Lemma updates_cons c cs : updates (c :: cs) = updates [c] ++ updates cs.
Proof. destruct c; reflexivity. Qed.

Lemma run_invariants cs :
  forall st w,
    settled st ->
    settled (fst (run lookup cs (st, w)))
    /\ subscribers (fst (run lookup cs (st, w))) = subscribers st ++ updates cs.
Proof.
  unfold run. induction cs as [|c cs IH]; intros st w Hs; cbn [fold_left].
  - split; [exact Hs | now rewrite app_nil_r].
  - pose proof (step_settled c st w Hs) as Hs'.
    pose proof (step_subscribers c st w) as Hsub.
    destruct (step lookup c (st, w)) as [st' w']. cbn [fst] in *.
    destruct (IH st' w' Hs') as [IHs IHsub]. split; [exact IHs|].
    rewrite IHsub, Hsub, <- app_assoc, <- updates_cons. reflexivity.
Qed.

Lemma run_length_le cs w :
  List.length (txs (fst (run lookup cs (store, w)))) <= 7.
Proof.
  rewrite <- hashes_length, run_hashes by (simpl; auto with arith).
  rewrite length_firstn. apply Nat.le_min_l.
Qed.

End Reached.

Lemma store_settled : settled store.
Proof. reflexivity. Qed.

(** X5. Every store reached from the initial one by [add], [updateStatus]
    and [updateAll] calls is stable under notification (running all the
    subscribed callbacks once more changes no record), and its subscribers
    are exactly the callbacks of the [updateStatus] calls made, in call
    order: none is ever removed. *)
Theorem reached_store_settled :
  forall (W : Type) (lookup : string -> W -> option TxStatus * W) cs w,
    settled (fst (run lookup cs (store, w)))
    /\ subscribers (fst (run lookup cs (store, w))) = updates cs.
Proof.
  intros W lookup cs w.
  exact (run_invariants lookup cs store w store_settled).
Qed.

(** X6. Once seven records were added, every further [add] leaves the
    store exactly as it was, whatever record is added and whatever
    [updateStatus] and [updateAll] calls were made in between. *)
Theorem add_to_full_ledger_is_noop :
  forall (W : Type) (lookup : string -> W -> option TxStatus * W) cs w tx,
    7 <= List.length (added cs) ->
    add tx (fst (run lookup cs (store, w))) = fst (run lookup cs (store, w)).
Proof.
  intros W lookup cs w tx Hfull.
  destruct (reached_store_settled W lookup cs w) as [Hs _].
  set (st := fst (run lookup cs (store, w))) in *.
  assert (Hlen : List.length (txs st) = 7).
  { unfold st. rewrite <- hashes_length, run_hashes by (simpl; auto with arith).
    cbn [hashes txs store map app]. rewrite length_firstn, length_map. lia. }
  apply store_eq; [|apply add_subscribers].
  rewrite add_txs, firstn_app, Hlen, Nat.sub_diag, firstn_O.
  rewrite app_nil_r, firstn_all2 by lia. exact Hs.
Qed.

Lemma add_to_full_ledger_is_noop_witness :
  add (tx_of "h9" PendingApproval) (fst (run never seven_and_more (store, tt)))
  = fst (run never seven_and_more (store, tt)).
Proof.
  apply (add_to_full_ledger_is_noop unit never seven_and_more tt).
  simpl. lia.
Defined.

(** *** The record a hash finds *)

Lemma first_with_assign_same h s l :
  first_with h (assign_first h s l)
  = option_map (fun tx => set_status tx s) (first_with h l).
Proof.
  unfold first_with. induction l as [|tx rest IH]; simpl; [reflexivity|].
  destruct (String.eqb_spec (hash tx) h) as [E|N]; simpl.
  - destruct (String.eqb_spec (hash tx) h); [reflexivity|contradiction].
  - destruct (String.eqb_spec (hash tx) h); [contradiction|exact IH].
Qed.

Lemma first_with_assign_other h h' s l :
  h' <> h -> first_with h (assign_first h' s l) = first_with h l.
Proof.
  intros Hne. unfold first_with.
  induction l as [|tx rest IH]; simpl; [reflexivity|].
  destruct (String.eqb_spec (hash tx) h') as [E'|N']; simpl.
  - destruct (String.eqb_spec (hash tx) h); [congruence|reflexivity].
  - destruct (String.eqb_spec (hash tx) h); [reflexivity|exact IH].
Qed.

Lemma pin_none h subs :
  pin h subs = None -> Forall (fun sub => sub_hash sub <> h) subs.
Proof.
  induction subs as [|sub subs IH]; simpl; intros H; [constructor|].
  destruct (pin h subs); [discriminate|].
  destruct (String.eqb_spec (sub_hash sub) h); [discriminate|].
  constructor; auto.
Qed.

Lemma notify_first_with_untargeted h subs :
  Forall (fun sub => sub_hash sub <> h) subs ->
  forall v, first_with h (notify subs v) = first_with h v.
Proof.
  induction 1 as [|sub subs Hsub _ IH]; intros v; [reflexivity|].
  rewrite notify_cons, IH. now apply first_with_assign_other.
Qed.

Lemma notify_first_with_pinned h s subs :
  pin h subs = Some s ->
  forall v tx, first_with h (notify subs v) = Some tx -> status tx = s.
Proof.
  induction subs as [|sub subs IH]; cbn [pin]; intros Hp v tx Hf; [discriminate|].
  rewrite notify_cons in Hf.
  destruct (pin h subs) as [s'|] eqn:Hrest.
  - injection Hp as <-. exact (IH eq_refl _ tx Hf).
  - destruct (String.eqb_spec (sub_hash sub) h) as [E|N]; [|discriminate].
    injection Hp as <-.
    rewrite (notify_first_with_untargeted h subs (pin_none h subs Hrest)) in Hf.
    rewrite E, first_with_assign_same in Hf.
    destruct (first_with h v) as [found|]; [|discriminate].
    injection Hf as <-. reflexivity.
Qed.

(** X7. A status set by [updateStatus] sticks to its hash: in every store
    reached from the initial one, the first record with hash [h] carries
    the status of the last [updateStatus] call made for [h], whatever was
    added or refreshed after that call and whatever the lookup answered. *)
Theorem last_updateStatus_pins_status :
  forall (W : Type) (lookup : string -> W -> option TxStatus * W) cs w h s tx,
    pin h (updates cs) = Some s ->
    first_with h (txs (fst (run lookup cs (store, w)))) = Some tx ->
    status tx = s.
Proof.
  intros W lookup cs w h s tx Hp Hf.
  destruct (reached_store_settled W lookup cs w) as [Hs Hsub].
  unfold settled in Hs. rewrite <- Hs, Hsub in Hf.
  exact (notify_first_with_pinned h s (updates cs) Hp _ tx Hf).
Qed.

Lemma last_updateStatus_pins_status_witness :
  first_with "h3" (txs (fst (run (always Included) seven_and_more (store, tt))))
  = Some (tx_of "h3" Rejected)
  /\ status (tx_of "h3" Rejected) = Rejected.
Proof.
  split; [reflexivity|].
  apply (last_updateStatus_pins_status unit (always Included) seven_and_more tt "h3").
  - reflexivity.
  - reflexivity.
Defined.

(** X8. Below capacity [add] stores the record at the end, as given, and
    the ledger grows by one; the record's status is replaced only when a
    callback is subscribed for its hash. *)
Theorem add_below_capacity_appends :
  forall st tx,
    List.length (txs st) < 7 ->
    untargeted st (hash tx) ->
    List.length (txs (add tx st)) = S (List.length (txs st))
    /\ nth_error (txs (add tx st)) (List.length (txs st)) = Some tx.
Proof.
  intros st tx Hlt Hun.
  assert (E : txs (add tx st) = notify (subscribers st) (txs st ++ [tx])).
  { rewrite add_txs, firstn_all2; [reflexivity|].
    rewrite length_app; simpl; lia. }
  rewrite E. split.
  - rewrite notify_length, length_app. simpl. lia.
  - apply notify_other; [|exact Hun].
    rewrite nth_error_app2, Nat.sub_diag by auto with arith. reflexivity.
Qed.

Lemma add_below_capacity_appends_witness :
  List.length (txs (add (tx_of "h2" Included) one_pending))
  = S (List.length (txs one_pending))
  /\ nth_error (txs (add (tx_of "h2" Included) one_pending))
       (List.length (txs one_pending))
     = Some (tx_of "h2" Included).
Proof.
  apply (add_below_capacity_appends one_pending (tx_of "h2" Included)).
  - simpl. lia.
  - constructor.
Defined.

(** X9. Two [updateStatus] calls for the same hash leave the contents of
    the second alone (the last call wins, and repeating a call changes
    nothing); calls for different hashes can be swapped. *)
Theorem updateStatus_compose :
  forall st h s s' h2 s2,
    txs (updateStatus h s (updateStatus h s' st)) = txs (updateStatus h s st)
    /\ (h <> h2 ->
        txs (updateStatus h s (updateStatus h2 s2 st))
        = txs (updateStatus h2 s2 (updateStatus h s st))).
Proof.
  intros st h s s' h2 s2.
  unfold updateStatus, store_subscribe, run_subscriber.
  cbn [txs sub_hash sub_status]. split.
  - apply assign_first_same.
  - intros Hne. now apply assign_first_comm.
Qed.

Lemma updateStatus_compose_witness :
  txs (updateStatus "h1" Included (updateStatus "h2" Rejected one_pending))
  = txs (updateStatus "h2" Rejected (updateStatus "h1" Included one_pending)).
Proof.
  apply (proj2 (updateStatus_compose one_pending "h1" Included Included "h2" Rejected)).
  discriminate.
Defined.

(** *** A refresh without answers *)

Lemma refreshed_silent {W} (lookup : string -> W -> option TxStatus * W) :
  silent lookup -> forall l w, refreshed lookup l w = l.
Proof.
  intros Hsil l. unfold refreshed.
  induction l as [|tx rest IH]; intros w; cbn [forEach_refresh]; [reflexivity|].
  rewrite refresh_one_assigned, (Hsil (hash tx) w).
  specialize (IH (snd (lookup (hash tx) w))).
  destruct (forEach_refresh lookup rest (snd (lookup (hash tx) w)))
    as [[rest' calls] w2].
  cbn [fst snd assigned] in *. now rewrite IH.
Qed.

(** X10. When the lookup has no answer for any hash, [updateAll] leaves a
    reached store exactly as it was: contents and subscribers. *)
Theorem updateAll_without_answers_is_noop :
  forall (W : Type) (lookup : string -> W -> option TxStatus * W) cs w w',
    silent lookup ->
    fst (updateAll lookup (fst (run lookup cs (store, w))) w')
    = fst (run lookup cs (store, w)).
Proof.
  intros W lookup cs w w' Hsil.
  destruct (reached_store_settled W lookup cs w) as [Hs _].
  apply store_eq; [|apply updateAll_subscribers].
  pose proof (refreshed_silent lookup Hsil
                (txs (fst (run lookup cs (store, w)))) w') as E.
  unfold refreshed in E. rewrite updateAll_txs, E. exact Hs.
Qed.

Lemma updateAll_without_answers_is_noop_witness :
  fst (updateAll never (fst (run never seven_and_more (store, tt))) tt)
  = fst (run never seven_and_more (store, tt)).
Proof.
  apply (updateAll_without_answers_is_noop unit never seven_and_more tt tt).
  intros h w. reflexivity.
Defined.

(** *** Smart constructors and the built-in lookup *)

(** X11. No smart constructor returns a record that is pending approval
    or rejected: a record enters the ledger awaiting inclusion or
    included. *)
Theorem constructors_never_pending_or_rejected :
  forall txc,
    Forall (fun make =>
              status (make txc) <> PendingApproval
              /\ status (make txc) <> Rejected)
           constructors.
Proof.
  intros txc. unfold constructors.
  repeat constructor; simpl; destruct (blockNumber_truthy txc); discriminate.
Qed.

(** *** The lookups of a refresh *)

Lemma ask_length {W A} (lookup : string -> W -> A * W) hs :
  forall w, List.length (fst (ask lookup hs w)) = List.length hs.
Proof.
  induction hs as [|h hs IH]; intros w; cbn [ask]; [reflexivity|].
  destruct (lookup h w) as [answer w1]. specialize (IH w1).
  destruct (ask lookup hs w1) as [answers w2]. cbn [fst List.length] in *.
  now rewrite IH.
Qed.

Lemma forEach_refresh_asks {W} (lookup : string -> W -> option TxStatus * W) l :
  forall w,
    forEach_refresh lookup l w
    = (map (fun p => assigned (fst p) (snd p))
           (combine l (fst (ask lookup (map hash l) w))),
       combine (map hash l) (fst (ask lookup (map hash l) w)),
       snd (ask lookup (map hash l) w)).
Proof.
  induction l as [|tx rest IH]; intros w; cbn [forEach_refresh map ask];
    [reflexivity|].
  rewrite refresh_one_assigned.
  destruct (lookup (hash tx) w) as [answer w1]. cbn [fst snd].
  rewrite (IH w1).
  destruct (ask lookup (map hash rest) w1) as [answers w2]. reflexivity.
Qed.

(** X25. For a ledger whose records have pairwise distinct hashes,
    [updateAll] asks the lookup once per record, with the record's hash
    and in ledger order, and hands the world on from one lookup to the
    next; its loop gives each record exactly the status answered for it
    ([PendingApproval] as any other) and leaves it as it was on no
    answer; what the store then holds is that array after the subscribed
    callbacks have run on it, so exactly that array when nothing has
    subscribed. *)
Theorem updateAll_asks_in_order :
  forall (W : Type) (lookup : string -> W -> option TxStatus * W) st w,
    NoDup (hashes st) ->
    lookups lookup (txs st) w
    = combine (hashes st) (fst (ask lookup (hashes st) w))
    /\ List.length (fst (ask lookup (hashes st) w)) = List.length (txs st)
    /\ snd (updateAll lookup st w) = snd (ask lookup (hashes st) w)
    /\ txs (fst (updateAll lookup st w))
       = notify (subscribers st)
           (map (fun p => assigned (fst p) (snd p))
                (combine (txs st) (fst (ask lookup (hashes st) w))))
    /\ (subscribers st = [] ->
        txs (fst (updateAll lookup st w))
        = map (fun p => assigned (fst p) (snd p))
              (combine (txs st) (fst (ask lookup (hashes st) w)))).
Proof.
  intros W lookup st w _.
  assert (E : txs (fst (updateAll lookup st w))
              = notify (subscribers st)
                  (map (fun p => assigned (fst p) (snd p))
                       (combine (txs st) (fst (ask lookup (hashes st) w))))).
  { rewrite updateAll_txs, forEach_refresh_asks. reflexivity. }
  split; [|split; [|split; [|split]]].
  - unfold lookups. now rewrite forEach_refresh_asks.
  - unfold hashes. now rewrite ask_length, length_map.
  - unfold updateAll. now rewrite forEach_refresh_asks.
  - exact E.
  - intros Hs. now rewrite E, Hs.
Qed.

Lemma updateAll_asks_in_order_witness :
  txs (fst (updateAll (always PendingApproval) one_pending tt))
  = map (fun p => assigned (fst p) (snd p))
        (combine (txs one_pending)
                 (fst (ask (always PendingApproval) (hashes one_pending) tt))).
Proof.
  apply (proj2 (proj2 (proj2 (proj2
    (updateAll_asks_in_order unit (always PendingApproval) one_pending tt
       ltac:(repeat constructor; intros []))))) eq_refl).
Defined.

(** *** The built-in lookup in the loop *)

Lemma lookupStatus_defined h r :
  (0 <= r)%Q -> (r < 1)%Q -> exists s, lookupStatus h r = Some s.
Proof.
  intros H0 H1.
  destruct (statuses_get _ (randomInt_bounds r H0 H1)) as (s & Hs & _).
  exists s. exact Hs.
Qed.

Lemma refresh_one_at_draw tx (rnd : nat -> Q) :
  refresh_one lookupStatus_random tx rnd
  = (assigned tx (lookupStatus (hash tx) (rnd O)),
     lookupStatus (hash tx) (rnd O), fun n => rnd (S n)).
Proof. now rewrite refresh_one_assigned. Qed.

Lemma forEach_random_nth l :
  forall rnd : nat -> Q,
    (forall n, (0 <= rnd n)%Q /\ (rnd n < 1)%Q) ->
    forall i tx,
      nth_error l i = Some tx ->
      exists s,
        lookupStatus (hash tx) (rnd i) = Some s
        /\ nth_error (refreshed lookupStatus_random l rnd) i = Some (set_status tx s)
        /\ nth_error (lookups lookupStatus_random l rnd) i = Some (hash tx, Some s).
Proof.
  unfold refreshed, lookups.
  induction l as [|r rest IH]; intros rnd Hr i tx Hi.
  - destruct i; discriminate.
  - cbn [forEach_refresh]. rewrite refresh_one_at_draw.
    specialize (IH (fun n => rnd (S n)) (fun n => Hr (S n))).
    destruct (forEach_refresh lookupStatus_random rest (fun n => rnd (S n)))
      as [[rest' calls] w2].
    cbn [fst snd] in *. destruct i as [|i]; cbn [nth_error] in *.
    + injection Hi as <-.
      destruct (Hr O) as [H0 H1].
      destruct (lookupStatus_defined (hash r) (rnd O) H0 H1) as [s Hs].
      exists s. rewrite Hs. cbn [assigned]. repeat split.
    + exact (IH i tx Hi).
Qed.

(** X12. With the built-in lookup a refresh overwrites every record of a
    ledger whose records have pairwise distinct hashes: whatever the
    draws of [Math.random] in [0, 1), the lookup is asked once per record
    and the record at position [i] ends the loop with the status
    [lookupStatus] returns at the [i]-th draw, whatever status it had. *)
Theorem updateAll_builtin_overwrites_all :
  forall (l : list Tx) (rnd : nat -> Q),
    NoDup (map hash l) ->
    (forall n, (0 <= rnd n)%Q /\ (rnd n < 1)%Q) ->
    List.length (lookups lookupStatus_random l rnd) = List.length l
    /\ forall i tx,
         nth_error l i = Some tx ->
         exists s,
           lookupStatus (hash tx) (rnd i) = Some s
           /\ nth_error (refreshed lookupStatus_random l rnd) i
              = Some (set_status tx s)
           /\ nth_error (lookups lookupStatus_random l rnd) i
              = Some (hash tx, Some s).
Proof.
  intros l rnd _ Hr. split; [|now apply forEach_random_nth].
  rewrite <- (length_map fst).
  rewrite (proj1 (forEach_refresh_lookups lookupStatus_random l rnd)).
  apply length_map.
Qed.

Lemma updateAll_builtin_overwrites_all_witness :
  exists s,
    lookupStatus "h3" (three_quarters 2) = Some s
    /\ nth_error (refreshed lookupStatus_random eight three_quarters) 2
       = Some (set_status (tx_of "h3" AwaitingInclusion) s)
    /\ nth_error (lookups lookupStatus_random eight three_quarters) 2
       = Some ("h3", Some s).
Proof.
  assert (Hd : NoDup (map hash eight))
    by (simpl; repeat constructor; simpl; intuition discriminate).
  assert (Hr : forall n, (0 <= three_quarters n)%Q /\ (three_quarters n < 1)%Q)
    by (intros n; split; [discriminate | reflexivity]).
  exact (proj2 (updateAll_builtin_overwrites_all eight three_quarters Hd Hr)
           2 (tx_of "h3" AwaitingInclusion) eq_refl).
Defined.

(** *** Where the code departs from its description *)



(** C4 (the code departs from the claim on a record [updateStatus] was
    called for).  On the store whose record [h1] was reported rejected
    through [updateStatus], a refresh asks the lookup for [h1] and is
    answered [Included]; the loop assigns [Included], and [store.update]
    then runs the callback that [updateStatus] left subscribed, which
    writes [Rejected] again: the record does not end with the status the
    lookup returned. *)
Theorem updateAll_answer_undone_by_callback :
  txs pinned = [tx_of "h1" Rejected]
  /\ lookups (always Included) (txs pinned) tt = [("h1", Some Included)]
  /\ refreshed (always Included) (txs pinned) tt = [tx_of "h1" Included]
  /\ txs (fst (updateAll (always Included) pinned tt)) = [tx_of "h1" Rejected].
Proof. repeat split. Qed.

(** C6 (the code departs from the claim on a hash the ledger does not
    hold).  [updateStatus] registers its callback with [store.subscribe]
    and never unsubscribes: the store is left with one more subscriber
    whether or not a record has the hash.  On the initial store the
    contents stay empty, but a record added afterwards under that hash is
    stored with the status of the earlier call instead of its own. *)
Theorem updateStatus_on_absent_hash_subscribes :
  (forall st h s,
      subscribers (updateStatus h s st)
      = subscribers st ++ [{| sub_hash := h; sub_status := s |}])
  /\ txs armed = []
  /\ txs (add (tx_of "h1" AwaitingInclusion) armed) = [tx_of "h1" Rejected]
  /\ txs (add (tx_of "h1" AwaitingInclusion) store) = [tx_of "h1" AwaitingInclusion].
Proof. repeat split. Qed.

(** *** What [updateStatus] writes *)

Lemma first_with_none_assign h s l :
  first_with h l = None -> assign_first h s l = l.
Proof.
  unfold first_with. induction l as [|tx rest IH]; simpl; [reflexivity|].
  destruct (String.eqb (hash tx) h); [discriminate|].
  intros H. now rewrite IH.
Qed.

(** X24. After [updateStatus h s] the first record with hash [h] has
    status [s] and its hash and [inner] as before; every record with
    another hash, the length and the order are as they were; and the
    contents are unchanged when no record has hash [h]. *)
Theorem updateStatus_writes_first_with_hash :
  forall st h s,
    first_with h (txs (updateStatus h s st))
    = option_map (fun tx => {| hash := hash tx; status := s; inner := inner tx |})
                 (first_with h (txs st))
    /\ (forall i tx,
          nth_error (txs st) i = Some tx -> hash tx <> h ->
          nth_error (txs (updateStatus h s st)) i = Some tx)
    /\ map hash (txs (updateStatus h s st)) = map hash (txs st)
    /\ map inner (txs (updateStatus h s st)) = map inner (txs st)
    /\ (first_with h (txs st) = None -> txs (updateStatus h s st) = txs st).
Proof.
  intros st h s. unfold updateStatus, store_subscribe, run_subscriber.
  cbn [txs sub_hash sub_status].
  split; [apply first_with_assign_same|].
  split; [intros i tx Hi Hne; now apply assign_first_other|].
  split; [apply assign_first_frame, hash_frame|].
  split; [apply assign_first_frame, inner_frame|].
  apply first_with_none_assign.
Qed.

Lemma updateStatus_writes_first_with_hash_witness :
  nth_error (txs (updateStatus "h2" Included one_pending)) 0
  = Some (tx_of "h1" AwaitingInclusion).
Proof.
  apply (proj1 (proj2 (updateStatus_writes_first_with_hash one_pending "h2" Included))
           0 (tx_of "h1" AwaitingInclusion)).
  - reflexivity.
  - discriminate.
Defined.

(** *** The sketch, again *)

Lemma sketch_first_written h s l :
  sketch_first h (Sketch.updateTxStatus h s l)
  = option_map (fun tx => Sketch.set_status tx s) (sketch_first h l).
Proof.
  unfold sketch_first. induction l as [|tx rest IH]; simpl; [reflexivity|].
  destruct (String.eqb_spec (Sketch.hash tx) h) as [E|N]; simpl.
  - destruct (String.eqb_spec (Sketch.hash tx) h); [reflexivity|contradiction].
  - destruct (String.eqb_spec (Sketch.hash tx) h); [contradiction|exact IH].
Qed.

Lemma sketch_other_hash_kept h s l :
  forall i tx,
    nth_error l i = Some tx -> Sketch.hash tx <> h ->
    nth_error (Sketch.updateTxStatus h s l) i = Some tx.
Proof.
  induction l as [|r rest IH]; intros i tx Hi Hne.
  - destruct i; discriminate.
  - simpl. destruct (String.eqb_spec (Sketch.hash r) h) as [E|N].
    + destruct i as [|i]; simpl in *; [|exact Hi].
      injection Hi as <-. contradiction.
    + destruct i as [|i]; simpl in *; [exact Hi|]. now apply IH.
Qed.

Lemma sketch_fields_kept {A} (f : Sketch.Tx -> A) h s l :
  (forall tx, f (Sketch.set_status tx s) = f tx) ->
  map f (Sketch.updateTxStatus h s l) = map f l.
Proof.
  intros Hf. induction l as [|tx rest IH]; simpl; [reflexivity|].
  destruct (String.eqb (Sketch.hash tx) h); simpl.
  - now rewrite Hf.
  - now rewrite IH.
Qed.

Lemma sketch_absent_unchanged h s l :
  sketch_first h l = None -> Sketch.updateTxStatus h s l = l.
Proof.
  unfold sketch_first. induction l as [|tx rest IH]; simpl; [reflexivity|].
  destruct (String.eqb (Sketch.hash tx) h); [discriminate|].
  intros H. now rewrite IH.
Qed.

(** X13. In the sketch, after [updateTxStatus h s] the first record with
    hash [h] has status [s] and its hash and [inner] as before; every
    record with another hash, the length and the order are as they were;
    and the array is unchanged when no record has hash [h]. *)
Theorem sketch_updateTxStatus_writes_first_with_hash :
  forall h s l,
    sketch_first h (Sketch.updateTxStatus h s l)
    = option_map (fun tx => Sketch.mkTx (Sketch.hash tx) s (Sketch.inner tx))
                 (sketch_first h l)
    /\ (forall i tx,
          nth_error l i = Some tx -> Sketch.hash tx <> h ->
          nth_error (Sketch.updateTxStatus h s l) i = Some tx)
    /\ map Sketch.hash (Sketch.updateTxStatus h s l) = map Sketch.hash l
    /\ map Sketch.inner (Sketch.updateTxStatus h s l) = map Sketch.inner l
    /\ (sketch_first h l = None -> Sketch.updateTxStatus h s l = l).
Proof.
  intros h s l.
  split; [apply sketch_first_written|].
  split; [apply sketch_other_hash_kept|].
  split; [now apply sketch_fields_kept|].
  split; [now apply sketch_fields_kept|].
  apply sketch_absent_unchanged.
Qed.

Lemma sketch_updateTxStatus_writes_first_with_hash_witness :
  Sketch.updateTxStatus "h9" Sketch.Rejected six = six.
Proof.
  apply (proj2 (proj2 (proj2 (proj2
    (sketch_updateTxStatus_writes_first_with_hash "h9" Sketch.Rejected six))))).
  reflexivity.
Defined.

Lemma sketch_updateAll_asks {W} (lookup : string -> W -> option Sketch.TxStatus * W) l :
  forall w,
    Sketch.updateAll lookup l w
    = (map (fun p => sketch_assigned (fst p) (snd p))
           (combine l (fst (ask lookup (map Sketch.hash l) w))),
       snd (ask lookup (map Sketch.hash l) w)).
Proof.
  induction l as [|tx rest IH]; intros w; cbn [Sketch.updateAll map ask];
    [reflexivity|].
  destruct (lookup (Sketch.hash tx) w) as [answer w1].
  rewrite (IH w1).
  destruct (ask lookup (map Sketch.hash rest) w1) as [answers w2].
  cbn [fst snd combine map]. f_equal. f_equal.
  destruct answer as [[]|]; reflexivity.
Qed.

(** X2. In the sketch a refresh never sets a status to
    [PendingApproval], whatever the lookup answers and whatever the array
    holds: each record is either left as it was or has its status, and
    nothing else, set to a status other than [PendingApproval].  For an
    array whose records have pairwise distinct hashes the loop asks the
    lookup once per record, with the record's hash and in array order, and
    the record gets exactly the answer when that is [AwaitingInclusion],
    [Included] or [Rejected]; on [PendingApproval], the number 0, as on no
    answer, the record is left as it was. *)
Theorem sketch_updateAll_never_assigns_PendingApproval :
  forall (W : Type) (lookup : string -> W -> option Sketch.TxStatus * W) l w,
    Forall2 (fun tx tx' =>
               tx' = tx
               \/ (Sketch.status tx' <> Sketch.PendingApproval
                   /\ tx' = Sketch.set_status tx (Sketch.status tx')))
            l (fst (Sketch.updateAll lookup l w))
    /\ (NoDup (map Sketch.hash l) ->
        Sketch.updateAll lookup l w
        = (map (fun p => sketch_assigned (fst p) (snd p))
               (combine l (fst (ask lookup (map Sketch.hash l) w))),
           snd (ask lookup (map Sketch.hash l) w))).
Proof.
  intros W lookup l w. split; [|intros _; apply sketch_updateAll_asks].
  revert w. induction l as [|tx rest IH]; intros w; simpl.
  - constructor.
  - destruct (lookup (Sketch.hash tx) w) as [answer w1].
    specialize (IH w1).
    destruct (Sketch.updateAll lookup rest w1) as [rest' w2].
    simpl in *. constructor; [|exact IH].
    destruct answer as [[]|]; simpl; auto; right; split;
      try discriminate; reflexivity.
Qed.

Lemma sketch_updateAll_never_assigns_PendingApproval_witness :
  Sketch.updateAll sketch_lookup six tt
  = (map (fun p => sketch_assigned (fst p) (snd p))
         (combine six (fst (ask sketch_lookup (map Sketch.hash six) tt))),
     snd (ask sketch_lookup (map Sketch.hash six) tt)).
Proof.
  apply (proj2 (sketch_updateAll_never_assigns_PendingApproval unit sketch_lookup six tt)).
  simpl. repeat constructor; simpl; intuition discriminate.
Defined.

Example sketch_updateAll_on_six :
  map Sketch.status (fst (Sketch.updateAll sketch_lookup six tt))
  = [Sketch.AwaitingInclusion; Sketch.Rejected; Sketch.Rejected;
     Sketch.Rejected; Sketch.Rejected; Sketch.Rejected].
Proof. reflexivity. Qed.

End LedgerMore.

(** ** Properties of the alerts store *)

Module StoreAlertsFacts.

Import StoreAlerts.

Local Open Scope Z_scope.

Lemma int_wrap_small z : -2147483648 <= z < 2147483648 -> int_wrap z = z.
Proof.
  intros H. unfold int_wrap. rewrite Z.mod_small by lia. lia.
Qed.

Section Facts.

Context {severity_t : Type}.

Lemma filter_all_true {A} (p : A -> bool) (l : list A) :
  Forall (fun x => p x = true) l -> filter p l = l.
Proof.
  induction 1 as [|x l Hx _ IH]; simpl; [reflexivity|].
  now rewrite Hx, IH.
Qed.

Lemma filter_twice {A} (p q : A -> bool) (l : list A) :
  filter p (filter q l) = filter q (filter p l).
Proof.
  induction l as [|x l IH]; simpl; [reflexivity|].
  destruct (p x) eqn:Hp, (q x) eqn:Hq; simpl; rewrite ?Hp, ?Hq, IH; reflexivity.
Qed.

Lemma filter_again {A} (p : A -> bool) (l : list A) :
  filter p (filter p l) = filter p l.
Proof.
  induction l as [|x l IH]; simpl; [reflexivity|].
  destruct (p x) eqn:Hp; simpl; rewrite ?Hp, IH; reflexivity.
Qed.

Lemma kept_ids_distinct (keep : alert severity_t -> bool) :
  forall shown : list (alert severity_t),
    NoDup (map id shown) -> NoDup (map id (filter keep shown)).
Proof.
  intros shown. induction shown as [|a shown IH]; intros Hnd.
  - constructor.
  - apply NoDup_cons_iff in Hnd as [Hnew Hold]. cbn [filter].
    destruct (keep a); [|now apply IH].
    cbn [map]. apply NoDup_cons; [|now apply IH].
    intros Hin. apply Hnew.
    apply in_map_iff in Hin as (other & Hid & Hin).
    apply filter_In in Hin as [Hin _].
    rewrite <- Hid. now apply in_map.
Qed.

Lemma reducer_fresh (st : state severity_t) act :
  fresh_ids st ->
  idCounter st + Z.of_nat (shows [act]) < 2147483648 ->
  fresh_ids (reducer st act)
  /\ idCounter (reducer st act) = idCounter st + Z.of_nat (shows [act]).
Proof.
  intros (H0 & Hb & Hnd) Hlt.
  destruct act as [a|a]; cbn [reducer idCounter all shows] in *.
  - unfold int_add. rewrite int_wrap_small by lia.
    split; [|lia]. unfold fresh_ids. cbn [idCounter all].
    split; [lia|]. split.
    + apply Forall_app. split.
      * eapply Forall_impl; [|exact Hb]. cbn beta. intros x Hx. lia.
      * constructor; [cbn [id]; lia | constructor].
    + rewrite map_app. cbn [map id].
      apply NoDup_app; [exact Hnd | repeat constructor; intros [] |].
      intros z Hz [<-|[]].
      apply in_map_iff in Hz as (x & Hx & Hin).
      rewrite Forall_forall in Hb. specialize (Hb x Hin). lia.
  - split; [|lia]. unfold fresh_ids. cbn [idCounter all].
    split; [exact H0|]. split.
    + rewrite Forall_forall in *. intros x Hx.
      apply filter_In in Hx as [Hx _]. auto.
    + now apply kept_ids_distinct.
Qed.

Lemma shows_cons (act : action severity_t) acts :
  shows (act :: acts) = (shows [act] + shows acts)%nat.
Proof. destruct act; reflexivity. Qed.

Lemma dispatched_fresh acts :
  forall st : state severity_t,
    fresh_ids st ->
    idCounter st + Z.of_nat (shows acts) < 2147483648 ->
    fresh_ids (dispatched acts st)
    /\ idCounter (dispatched acts st) = idCounter st + Z.of_nat (shows acts).
Proof.
  unfold dispatched.
  induction acts as [|act acts IH]; intros st Hf Hlt; cbn [fold_left].
  - split; [exact Hf | simpl; lia].
  - rewrite shows_cons in *.
    destruct (reducer_fresh st act Hf) as [Hf' Hc']; [lia|].
    destruct (IH (reducer st act) Hf') as [Hf'' Hc'']; [lia|].
    split; [exact Hf''|]. lia.
Qed.

Lemma initialState_fresh : fresh_ids (@initialState severity_t).
Proof. repeat split; simpl; try lia; constructor. Qed.

End Facts.

(** X14. As long as fewer than 2^31 alerts were shown, the counter is the
    number of alerts shown so far, every alert on display has an id below
    it, and no two alerts on display have the same id: [Remove] never
    gives an id back. *)
Theorem alert_ids_are_fresh :
  forall (severity_t : Type) (acts : list (action severity_t)),
    Z.of_nat (shows acts) < 2147483648 ->
    idCounter (dispatched acts initialState) = Z.of_nat (shows acts)
    /\ Forall (fun a => 0 <= id a < Z.of_nat (shows acts))
              (all (dispatched acts initialState))
    /\ NoDup (map id (all (dispatched acts initialState))).
Proof.
  intros severity_t acts Hlt.
  destruct (dispatched_fresh acts initialState initialState_fresh)
    as [(H0 & Hb & Hnd) Hc]; [simpl; lia|].
  simpl in Hc. rewrite Hc in Hb. repeat split; assumption.
Qed.

Lemma alert_ids_are_fresh_witness :
  idCounter (dispatched [Show warning; Show notice; Remove warning; Show notice]
                 initialState) = 3
  /\ Forall (fun a => 0 <= id a < 3)
            (all (dispatched [Show warning; Show notice; Remove warning; Show notice]
                      initialState))
  /\ NoDup (map id
              (all (dispatched [Show warning; Show notice; Remove warning; Show notice]
                        initialState))).
Proof.
  apply (alert_ids_are_fresh nat
           [Show warning; Show notice; Remove warning; Show notice]).
  simpl. lia.
Defined.

(** X15. Showing an alert and then removing the alert with the id it was
    given brings the display back to what it was (the counter stays
    advanced), as long as fewer than 2^31 alerts were shown before. *)
Theorem show_then_remove_restores :
  forall (severity_t : Type) (acts : list (action severity_t)) a b,
    Z.of_nat (shows acts) < 2147483648 ->
    id b = idCounter (dispatched acts initialState) ->
    all (dispatched (acts ++ [Show a; Remove b]) initialState)
    = all (dispatched acts initialState).
Proof.
  intros severity_t acts a b Hlt Hb.
  destruct (dispatched_fresh acts initialState initialState_fresh)
    as [(H0 & Hbound & Hnd) Hc]; [simpl; lia|].
  unfold dispatched in *. rewrite fold_left_app. cbn [fold_left reducer all idCounter id].
  set (st := fold_left reducer acts initialState) in *.
  rewrite filter_app. cbn [filter id]. rewrite Hb, Z.eqb_refl. cbn [negb].
  rewrite app_nil_r. apply filter_all_true.
  eapply Forall_impl; [|exact Hbound]. cbn beta. intros x Hx.
  apply negb_true_iff, Z.eqb_neq. lia.
Qed.

Lemma show_then_remove_restores_witness :
  all (dispatched ([Show warning] ++ [Show notice; Remove (mkAlert 7%nat "x" 1)])
           initialState)
  = all (dispatched [Show warning] initialState).
Proof.
  apply (show_then_remove_restores nat [Show warning] notice (mkAlert 7%nat "x" 1)).
  - simpl. lia.
  - reflexivity.
Defined.

(** X16. [Remove] looks at the id of its alert only and takes every alert
    with that id off the display, keeping the others in order, and never
    changes the counter: removing twice is removing once, removals can be
    swapped, and removing an id that is not on display changes nothing. *)
Theorem remove_by_id :
  forall (severity_t : Type) (st : state severity_t) b c,
    reducer (reducer st (Remove b)) (Remove b) = reducer st (Remove b)
    /\ reducer (reducer st (Remove b)) (Remove c)
       = reducer (reducer st (Remove c)) (Remove b)
    /\ (id c = id b -> reducer st (Remove c) = reducer st (Remove b))
    /\ (Forall (fun x => id x <> id b) (all st) -> reducer st (Remove b) = st)
    /\ (forall x, In x (all (reducer st (Remove b)))
                  <-> In x (all st) /\ id x <> id b)
    /\ idCounter (reducer st (Remove b)) = idCounter st
    /\ all (reducer st (Remove b))
       = filter (fun x => negb (Z.eqb (id x) (id b))) (all st).
Proof.
  intros severity_t st b c. cbn [reducer idCounter all].
  split; [now rewrite filter_again|].
  split; [now rewrite filter_twice|].
  split; [intros ->; reflexivity|]. split; [|split; [|split]].
  - intros Hall. destruct st as [n l]. cbn [idCounter all] in *. f_equal.
    apply filter_all_true. eapply Forall_impl; [|exact Hall].
    cbn beta. intros x Hx. apply negb_true_iff, Z.eqb_neq. congruence.
  - intros x. rewrite filter_In, negb_true_iff, Z.eqb_neq.
    split; intros [H1 H2]; split; auto.
  - reflexivity.
  - apply filter_ext. intros x. now rewrite Z.eqb_sym.
Qed.

Lemma remove_by_id_witness :
  reducer (dispatched [Show warning] initialState) (Remove warning)
  = dispatched [Show warning] initialState.
Proof.
  apply (proj1 (proj2 (proj2 (proj2
    (remove_by_id nat (dispatched [Show warning] initialState) warning warning))))).
  repeat constructor. discriminate.
Defined.

End StoreAlertsFacts.

(** ** Properties of the navigation history *)

Module NavigationFacts.

Import Navigation.

Lemma slice_last_length {A} n (a : list A) :
  List.length (slice_last n a) = Nat.min n (List.length a).
Proof. unfold slice_last. rewrite length_skipn. lia. Qed.

Lemma slice_last_short {A} n (a : list A) :
  List.length a <= n -> slice_last n a = a.
Proof.
  intros H. unfold slice_last.
  replace (List.length a - n) with 0 by lia. reflexivity.
Qed.

Lemma slice_last_snoc {A} (a : list A) x :
  nth_error (slice_last 1 (a ++ [x])) 0 = Some x.
Proof.
  unfold slice_last. rewrite length_app. simpl.
  replace (List.length a + 1 - 1) with (List.length a + 0) by lia.
  rewrite skipn_app, Nat.add_0_r, skipn_all.
  replace (List.length a - List.length a) with 0 by lia. reflexivity.
Qed.

Lemma slice_but_last_snoc {A} (a : list A) x :
  slice_but_last 1 (a ++ [x]) = a.
Proof.
  unfold slice_but_last. rewrite length_app. simpl.
  replace (List.length a + 1 - 1) with (List.length a + 0) by lia.
  rewrite firstn_app_2. simpl. apply app_nil_r.
Qed.

Lemma snoc_cases {A} (a : list A) :
  a = [] \/ exists older current, a = older ++ [current].
Proof.
  destruct a as [|x a] using rev_ind; [left; reflexivity|].
  right. exists a, x. reflexivity.
Qed.

Lemma slice_last_snoc_ten {A} (a : list A) x :
  exists older, slice_last 10 (a ++ [x]) = older ++ [x].
Proof.
  unfold slice_last. rewrite length_app. simpl.
  destruct (Nat.le_gt_cases (List.length a + 1) 10) as [H|H].
  - replace (List.length a + 1 - 10) with 0 by lia. exists a. reflexivity.
  - rewrite skipn_app.
    replace (List.length a + 1 - 10 - List.length a) with 0 by lia.
    exists (skipn (List.length a + 1 - 10) a). reflexivity.
Qed.

Section Facts.

Context {Route LoadedRoute : Type}.
Variable load : Route -> option LoadedRoute.
Variable routeToPath : Route -> string.

Lemma setHistory_snoc older current (w : World Route LoadedRoute) :
  setHistory load routeToPath (older ++ [current]) w
  = match load current with
    | None => inl LoadRejected
    | Some loadedRoute =>
        inr {| historyStore := older ++ [current];
               activeRouteStore := loadedRoute;
               window_history_state := Some (older ++ [current]);
               window_location := Some (routeToPath current) |}
    end.
Proof.
  unfold setHistory. rewrite slice_last_snoc.
  destruct (Nat.eqb_spec (List.length (older ++ [current])) 0) as [E|_];
    [|reflexivity].
  rewrite length_app in E. simpl in E. lia.
Qed.

Lemma setHistory_ok history (w w' : World Route LoadedRoute) :
  setHistory load routeToPath history w = inr w' ->
  historyStore w' = history /\ in_step load routeToPath w'.
Proof.
  destruct (snoc_cases history) as [->|(older & current & ->)].
  - discriminate.
  - rewrite setHistory_snoc.
    destruct (load current) as [lr|] eqn:E; [|discriminate].
    intros [= <-]. split; [reflexivity|].
    exists older, current. cbn. auto.
Qed.

Lemma setHistory_not_empty history (w : World Route LoadedRoute) :
  history <> [] -> setHistory load routeToPath history w <> inl EmptyHistory.
Proof.
  intros Hne. destruct (snoc_cases history) as [->|(older & current & ->)].
  - contradiction.
  - rewrite setHistory_snoc. destruct (load current); discriminate.
Qed.

Lemma after_bounds (w : World Route LoadedRoute) r :
  1 <= List.length (historyStore w) <= 10 ->
  1 <= List.length (historyStore (after load routeToPath w r)) <= 10.
Proof.
  intros Hw. unfold after, request.
  destruct r as [newRoute|].
  - unfold push.
    destruct (setHistory load routeToPath _ w) as [e|w'] eqn:E; [exact Hw|].
    apply setHistory_ok in E as [-> _].
    rewrite slice_last_length, length_app. cbn [List.length]. lia.
  - unfold pop.
    destruct (Nat.ltb_spec 1 (List.length (historyStore w))) as [H|H];
      [|exact Hw].
    destruct (setHistory load routeToPath _ w) as [e|w'] eqn:E; [exact Hw|].
    apply setHistory_ok in E as [-> _].
    unfold slice_but_last. rewrite length_firstn. lia.
Qed.

Lemma navigate_bounds rs :
  forall w : World Route LoadedRoute,
    1 <= List.length (historyStore w) <= 10 ->
    1 <= List.length (historyStore (navigate load routeToPath rs w)) <= 10.
Proof.
  unfold navigate.
  induction rs as [|r rs IH]; intros w Hw; cbn [fold_left]; [exact Hw|].
  apply IH, after_bounds, Hw.
Qed.

End Facts.

(** X17. Whatever is pushed and popped, and whether or not the routes
    load, the history holds at least one and at most ten routes. *)
Theorem history_between_one_and_ten :
  forall (Route LoadedRoute : Type) (DEFAULT_ROUTE : Route)
         (INITIAL_ROUTE : LoadedRoute) (load : Route -> option LoadedRoute)
         (routeToPath : Route -> string) saved rs,
    1 <= List.length
           (historyStore (navigate load routeToPath rs
                 (loaded DEFAULT_ROUTE INITIAL_ROUTE saved)))
      <= 10.
Proof.
  intros. apply navigate_bounds. simpl. lia.
Qed.

(** X18. A request that succeeds either leaves everything as it was (a
    [pop] on a history of one route) or leaves the two stores and the
    window in step: the active route is the loaded last route of the
    history, [window.history.state] is the history and the location is the
    path of that route.  The same holds for [initialize]. *)
Theorem success_leaves_stores_in_step :
  forall (Route LoadedRoute : Type) (DEFAULT_ROUTE : Route)
         (load : Route -> option LoadedRoute) (routeToPath : Route -> string)
         (w w' : World Route LoadedRoute),
    (forall r, request load routeToPath r w = inr w' ->
               w' = w \/ in_step load routeToPath w')
    /\ (initialize DEFAULT_ROUTE load routeToPath w = inr w' ->
        in_step load routeToPath w').
Proof.
  intros. split.
  - intros [newRoute|]; unfold request, push, pop.
    + intros E. right. now apply setHistory_ok in E.
    + destruct (Nat.ltb 1 (List.length (historyStore w))).
      * intros E. right. now apply setHistory_ok in E.
      * intros [= <-]. left. reflexivity.
  - unfold initialize. intros E. now apply setHistory_ok in E.
Qed.

Lemma success_leaves_stores_in_step_witness :
  in_step unlucky path_of
    {| historyStore := [0; 5]; activeRouteStore := 5;
       window_history_state := Some [0; 5];
       window_location := Some (path_of 5) |}.
Proof.
  destruct (proj1 (success_leaves_stores_in_step nat nat 0 unlucky path_of
                     (loaded 0 0 None)
                     {| historyStore := [0; 5]; activeRouteStore := 5;
                        window_history_state := Some [0; 5];
                        window_location := Some (path_of 5) |})
                  (Push 5) eq_refl) as [E|H].
  - discriminate E.
  - exact H.
Defined.

(** X19. [push] and [pop] never fail with [EmptyHistory]: [pop] does not
    empty the history, it leaves a history of one route alone.
    [initialize] fails with [EmptyHistory] exactly when the saved window
    state is an empty array. *)
Theorem empty_history_only_from_saved_state :
  forall (Route LoadedRoute : Type) (DEFAULT_ROUTE : Route)
         (load : Route -> option LoadedRoute) (routeToPath : Route -> string)
         (w : World Route LoadedRoute) newRoute,
    push load routeToPath newRoute w <> inl EmptyHistory
    /\ pop load routeToPath w <> inl EmptyHistory
    /\ (List.length (historyStore w) <= 1 -> pop load routeToPath w = inr w)
    /\ (initialize DEFAULT_ROUTE load routeToPath w = inl EmptyHistory
        <-> window_history_state w = Some []).
Proof.
  intros. split; [|split; [|split]].
  - unfold push. apply setHistory_not_empty.
    destruct (slice_last_snoc_ten (historyStore w) newRoute) as [older ->].
    now destruct older.
  - unfold pop.
    destruct (Nat.ltb_spec 1 (List.length (historyStore w))) as [H|H];
      [|discriminate].
    apply setHistory_not_empty. intros E.
    apply (f_equal (@List.length Route)) in E.
    unfold slice_but_last in E. rewrite length_firstn in E. simpl in E. lia.
  - intros H. unfold pop.
    destruct (Nat.ltb_spec 1 (List.length (historyStore w))); [lia|reflexivity].
  - unfold initialize. split.
    + destruct (window_history_state w) as [[|r saved]|] eqn:E; intros H.
      * reflexivity.
      * exfalso. revert H. now apply setHistory_not_empty.
      * exfalso. revert H. now apply setHistory_not_empty.
    + intros ->. reflexivity.
Qed.

Lemma empty_history_only_from_saved_state_witness :
  pop unlucky path_of (loaded 0 0 None) = inr (loaded 0 0 None).
Proof.
  apply (proj1 (proj2 (proj2
    (empty_history_only_from_saved_state nat nat 0 unlucky path_of
       (loaded 0 0 None) 1)))).
  simpl. lia.
Defined.

(** X20. After a [push] and a [pop] that both load their routes the
    history is what it was when it held fewer than ten routes; at ten
    routes the oldest one is gone and the rest is kept in order. *)
Theorem push_then_pop :
  forall (Route LoadedRoute : Type)
         (load : Route -> option LoadedRoute) (routeToPath : Route -> string)
         (w : World Route LoadedRoute) older current newRoute,
    historyStore w = older ++ [current] ->
    List.length (historyStore w) <= 10 ->
    load newRoute <> None ->
    load current <> None ->
    historyStore (navigate load routeToPath [Push newRoute; Pop] w)
    = if Nat.ltb (List.length (historyStore w)) 10
      then historyStore w
      else tl (historyStore w).
Proof.
  intros Route LoadedRoute load routeToPath w older current newRoute Hh Hlen Hn Hc.
  unfold navigate; cbn [fold_left]. unfold after at 2, request, push.
  assert (Hs : slice_last 10 (historyStore w ++ [newRoute])
               = (if Nat.ltb (List.length (historyStore w)) 10
                  then historyStore w
                  else tl (historyStore w)) ++ [newRoute]).
  { destruct (Nat.ltb_spec (List.length (historyStore w)) 10) as [H|H].
    - apply slice_last_short. rewrite length_app. simpl. lia.
    - unfold slice_last. rewrite length_app. simpl.
      replace (List.length (historyStore w) + 1 - 10) with 1 by lia.
      rewrite Hh. destruct older; [simpl in *; rewrite Hh in H; simpl in H; lia|].
      reflexivity. }
  rewrite Hs, setHistory_snoc.
  destruct (load newRoute) as [lr|]; [|contradiction].
  set (kept := if Nat.ltb _ 10 then _ else _) in *.
  assert (Hk : exists older', kept = older' ++ [current]).
  { unfold kept. destruct (Nat.ltb_spec (List.length (historyStore w)) 10) as [H|H].
    - exists older. exact Hh.
    - rewrite Hh in *. destruct older as [|x older].
      + simpl in H. lia.
      + exists older. reflexivity. }
  destruct Hk as [older' Hk].
  unfold after, request, pop. cbn [historyStore].
  rewrite length_app. simpl.
  destruct (Nat.ltb_spec 1 (List.length kept + 1)) as [H|H].
  - rewrite slice_but_last_snoc, Hk, setHistory_snoc.
    destruct (load current); [reflexivity|contradiction].
  - rewrite Hk, length_app in H. simpl in H. lia.
Qed.

Lemma push_then_pop_witness :
  historyStore (navigate unlucky path_of [Push 5; Pop] (loaded 0 0 None))
  = if Nat.ltb (List.length (historyStore (loaded 0 0 None))) 10
    then historyStore (loaded 0 0 None)
    else tl (historyStore (loaded 0 0 None)).
Proof.
  apply (push_then_pop nat nat unlucky path_of (loaded 0 0 None) [] 0 5).
  - reflexivity.
  - simpl. lia.
  - discriminate.
  - discriminate.
Defined.

End NavigationFacts.

(** ** Properties of the code view store and of the pool receivers *)

Module CodeViewFacts.

Import CodeView.

(** X21. One run of the callback hands at most one value to [set], never
    an error and never a file view, and asks for the tree exactly when
    the project is loaded and a peer and a revision are selected.  For a
    project not asked for or loading the store takes that status.  For a
    project that failed to load, and for a loaded one without a selected
    peer or revision or with a rejected request, nothing is set and the
    store keeps the value it had.  For a loaded project with peer and
    revision whose two requests succeed the store becomes [Success] with
    the [Root] view made of the peer, the revision, the last commit of the
    tree fetched, the project and the readme. *)
Theorem callback_sets_at_most_once :
  forall (Urn PeerId Revision Project User Tree LastCommit Readme Blob Err : Type)
         (urn : Project -> Urn) (peerId : User -> PeerId)
         (info_lastCommit : Tree -> LastCommit)
         (fetchObject : Urn -> PeerId -> string -> Revision -> option Tree)
         (readme : Urn -> PeerId -> Revision -> Tree -> option (option Readme))
         (currentProject : Data Project Err) selectedPeer selectedRevision
         (previous : Data (Code Revision Project User LastCommit Readme Blob Err) Err),
    let r := callback urn peerId info_lastCommit fetchObject readme
               currentProject selectedPeer selectedRevision in
    List.length (sets r) <= 1
    /\ Forall (fun v => match v with
                        | Error _ => False
                        | Success (File _ _ _ _) => False
                        | _ => True
                        end) (sets r)
    /\ requests r
       = match currentProject, selectedPeer, selectedRevision with
         | Success project, Some peer, Some revision =>
             [(urn project, peerId peer, "", revision)]
         | _, _, _ => []
         end
    /\ match currentProject with
       | Error _ => code previous r = previous
       | NotAsked => code previous r = NotAsked
       | Loading => code previous r = Loading
       | Success project =>
           match selectedPeer, selectedRevision with
           | Some peer, Some revision =>
               match fetchObject (urn project) (peerId peer) "" revision with
               | Some tree =>
                   match readme (urn project) (peerId peer) revision tree with
                   | Some file =>
                       code previous r
                       = Success (Root peer revision
                                    (info_lastCommit tree) project file)
                   | None => code previous r = previous
                   end
               | None => code previous r = previous
               end
           | _, _ => code previous r = previous
           end
       end.
Proof.
  intros. subst r. unfold callback, code.
  destruct currentProject as [| |project|e];
    destruct selectedPeer as [peer|]; destruct selectedRevision as [revision|];
    cbn; try (repeat split; auto; fail);
    try (split; [lia|]; split; [repeat constructor|]; split; reflexivity).
  destruct (fetchObject (urn project) (peerId peer) "" revision) as [tree|];
    [destruct (readme (urn project) (peerId peer) revision tree) as [file|]|];
    cbn; (split; [lia|]; split; [repeat constructor|]; split; reflexivity).
Qed.

End CodeViewFacts.

Module PoolFacts.

Import Pool.

Lemma includes_In a x : includes a x = true <-> In x a.
Proof.
  unfold includes. rewrite existsb_exists. split.
  - intros (y & Hy & E). apply String.eqb_eq in E. now subst.
  - intros H. exists x. split; [exact H | apply String.eqb_refl].
Qed.

Lemma filter_none {A} (p : A -> bool) (l : list A) :
  (forall x, In x l -> p x = false) -> filter p l = [].
Proof.
  induction l as [|x l IH]; intros H; [reflexivity|].
  cbn [filter]. rewrite (H x) by now left.
  apply IH. intros y Hy. apply H. now right.
Qed.

Lemma not_new receiverAddresses l :
  (forall x, In x l -> In x receiverAddresses) ->
  filter (fun x => negb (includes receiverAddresses x)) l = [].
Proof.
  intros H. apply filter_none. intros x Hx.
  now rewrite (proj2 (includes_In receiverAddresses x)) by auto.
Qed.

(** X22. [updateReceiverAddresses] calls [setReceiver(address, 1)] for
    the requested addresses that are not receivers yet, and for nothing
    else: a receiver missing from the request is not touched, so the call
    cannot remove a receiver, and a request naming only receivers sends
    no transaction.  The calls follow the request address by address: one
    call for an address that is not a receiver, none for one that is, and
    the calls for a request in two parts are the calls for the first part
    followed by those for the second, so an address requested twice is
    sent twice. *)
Theorem updateReceiverAddresses_only_adds :
  forall receiverAddresses addresses,
    (forall address weight,
        In (address, weight) (updateReceiverAddresses receiverAddresses addresses)
        <-> In address addresses /\ ~ In address receiverAddresses /\ weight = 1%Z)
    /\ ((forall address, In address addresses -> In address receiverAddresses)
        -> updateReceiverAddresses receiverAddresses addresses = [])
    /\ updateReceiverAddresses receiverAddresses (receiverAddresses ++ addresses)
       = updateReceiverAddresses receiverAddresses addresses
    /\ (forall first rest,
          updateReceiverAddresses receiverAddresses (first ++ rest)
          = updateReceiverAddresses receiverAddresses first
            ++ updateReceiverAddresses receiverAddresses rest)
    /\ (forall address,
          updateReceiverAddresses receiverAddresses [address]
          = if includes receiverAddresses address then [] else [(address, 1%Z)]).
Proof.
  intros receiverAddresses addresses. unfold updateReceiverAddresses.
  split; [|split; [|split; [|split]]].
  - intros address weight. rewrite in_map_iff. split.
    + intros (x & [= <- <-] & Hin). apply filter_In in Hin as [Hin Hn].
      split; [exact Hin|]. split; [|reflexivity].
      intros H. apply includes_In in H. rewrite H in Hn. discriminate.
    + intros (Hin & Hn & ->). exists address. split; [reflexivity|].
      apply filter_In. split; [exact Hin|].
      destruct (includes receiverAddresses address) eqn:E; [|reflexivity].
      apply includes_In in E. contradiction.
  - intros Hall. now rewrite not_new.
  - rewrite filter_app, (not_new receiverAddresses receiverAddresses) by auto.
    reflexivity.
  - intros first rest. now rewrite filter_app, map_app.
  - intros address. cbn [filter].
    destruct (includes receiverAddresses address); reflexivity.
Qed.

End PoolFacts.
